(** * Byte Pair Encoding trainer (tokenizers/bpe.py)

    A shallow embedding of [BytePairEncoder] and the properties of its
    registration, merge selection, compression pass and training loop.

    Data model.
    - A symbol is a Python [int]: [Z].  Raw bytes are 0..255.
    - A pair is a 2-tuple of symbols.
    - A Python [dict] keeps its keys in insertion order and the code iterates
      over [keys()], [values()] and [items()], so a dict is an association
      list: assignment to a present key replaces the value in place,
      assignment to an absent key appends the entry.
    - [self.vocab] is mutated in place; the methods that write it are
      modelled by state passing (the updated dict is returned), and where
      two encoders can hold the same dict, dicts are objects in a store
      and an encoder holds a reference. *)

From Stdlib Require Import String Ascii ZArith List Bool Lia.
Import ListNotations.
Open Scope Z_scope.

(** ** Python dicts keyed by pairs *)

Definition Symbol := Z.
Definition Pair := (Symbol * Symbol)%type.

Definition pair_eqb (p q : Pair) : bool :=
  (fst p =? fst q) && (snd p =? snd q).

Module Dict.

Definition t := list (Pair * Z).

Definition empty : t := [].

(** [d.get(k)], [None] when the key is absent *)
Fixpoint get (d : t) (k : Pair) : option Z :=
  match d with
  | [] => None
  | (k', v) :: d' => if pair_eqb k k' then Some v else get d' k
  end.

(** [k in d] *)
Definition mem (d : t) (k : Pair) : bool :=
  match get d k with Some _ => true | None => false end.

(** [d[k] = v] *)
Fixpoint set (d : t) (k : Pair) (v : Z) : t :=
  match d with
  | [] => [(k, v)]
  | (k', v') :: d' =>
      if pair_eqb k k' then (k', v) :: d' else (k', v') :: set d' k v
  end.

(** [d[k] += n] on a [defaultdict(int)] *)
Fixpoint add (d : t) (k : Pair) (n : Z) : t :=
  match d with
  | [] => [(k, 0 + n)]
  | (k', v') :: d' =>
      if pair_eqb k k' then (k', v' + n) :: d' else (k', v') :: add d' k n
  end.

Definition keys (d : t) : list Pair := map fst d.
Definition values (d : t) : list Z := map snd d.
Definition items (d : t) : list (Pair * Z) := d.

(** [not d] *)
Definition is_empty (d : t) : bool :=
  match d with [] => true | _ => false end.

End Dict.

(** [max(l)] of a non-empty list; Python raises [ValueError] on the empty
    list, which no call site below can reach (each is guarded by an
    emptiness test), so the empty case is given the value 0. *)
Definition py_max (l : list Z) : Z :=
  match l with
  | [] => 0
  | x :: xs => fold_left Z.max xs x
  end.

(** [len(l)] as a Python integer *)
Definition len {A} (l : list A) : Z := Z.of_nat (length l).

(** [l[i]] for an index in range, and [l[-1]] *)
Definition getitem (l : list Symbol) (i : Z) : Symbol := nth (Z.to_nat i) l 0.
Definition getlast (l : list Symbol) : Symbol := last l 0.

(** ** The encoder object *)

Record BytePairEncoder := mkEncoder {
  lower_frequency_limit : Z;
  max_iterations : Z;
  vocab : Dict.t
}.

(** The outcome of a Python call: it returns a value or raises. *)
Inductive outcome (A : Type) : Type :=
| Returns (a : A)
| Raises (msg : string).
Arguments Returns {A} a.
Arguments Raises {A} msg.

(** [BytePairEncoder.__init__]: three field assignments, no test, no raise. *)
Definition init (lfl : Z) (max_iter : Z) (vocabulary : Dict.t)
  : outcome BytePairEncoder :=
  Returns (mkEncoder lfl max_iter vocabulary).

(** ** [_count_pair_frequencies] *)

(** The loop [for i in range(len(sequence) - 1)] visits the adjacent pairs
    from left to right. *)
Fixpoint count_loop (sequence : list Symbol) (freq_map : Dict.t) : Dict.t :=
  match sequence with
  | [] => freq_map
  | a :: tl =>
      match tl with
      | [] => freq_map
      | b :: _ => count_loop tl (Dict.add freq_map (a, b) 1)
      end
  end.

Definition count_pair_frequencies (sequence : list Symbol) : Dict.t :=
  count_loop sequence Dict.empty.

(** ** [_find_most_frequent_pairs] *)

Definition find_most_frequent_pairs (lfl : Z) (freq_map : Dict.t) : list Pair :=
  if Dict.is_empty freq_map then []
  else
    filter
      (fun x =>
         match Dict.get freq_map x with
         | Some c => c =? Z.max (py_max (Dict.values freq_map)) lfl
         | None => false
         end)
      (Dict.keys freq_map).

(** ** [_update_vocabulary] *)

Fixpoint assign_tokens (vocab : Dict.t) (pairs : list Pair) (next_token : Z)
  : Dict.t :=
  match pairs with
  | [] => vocab
  | p :: rest =>
      assign_tokens (Dict.set vocab p next_token) rest (next_token + 1)
  end.

Definition first_token (vocab : Dict.t) : Z :=
  if Dict.is_empty vocab then 0 else py_max (Dict.values vocab) + 1.

Definition update_vocabulary (vocab : Dict.t) (pairs : list Pair) : Dict.t :=
  assign_tokens vocab pairs (first_token vocab).

(** ** [_compress_sequence] *)

(** The [while i < len(sequence) - 1] loop, on the state [(i, compressed)]
    (the variable [flag] of the source is written and never read).
    Every iteration advances [i], so [length sequence] iterations suffice
    ([compress_loop_exit] below: the loop leaves by its own test). *)
Fixpoint compress_loop (fuel : nat) (sequence : list Symbol) (vocab : Dict.t)
  (i : Z) (compressed : list Symbol) : Z * list Symbol :=
  match fuel with
  | O => (i, compressed)
  | S fuel' =>
      if i <? len sequence - 1 then
        let pair := (getitem sequence i, getitem sequence (i + 1)) in
        match Dict.get vocab pair with
        | Some tok =>
            compress_loop fuel' sequence vocab (i + 2) (compressed ++ [tok])
        | None =>
            compress_loop fuel' sequence vocab (i + 1)
              (compressed ++ [getitem sequence i])
        end
      else (i, compressed)
  end.

Definition compress_sequence (sequence : list Symbol) (vocab : Dict.t)
  : list Symbol :=
  let '(i, compressed) :=
    compress_loop (length sequence) sequence vocab 0 [] in
  if i =? len sequence - 1 then compressed ++ [getlast sequence]
  else compressed.

(** ** [train_bpe] *)

(** The aggregation loop
    [for seq in ...: for k, v in self._count_pair_frequencies(seq).items():
       freq_map[k] += v]. *)
Definition add_items (freq_map : Dict.t) (its : list (Pair * Z)) : Dict.t :=
  fold_left (fun fm kv => Dict.add fm (fst kv) (snd kv)) its freq_map.

Definition aggregate (sequence_list : list (list Symbol)) : Dict.t :=
  fold_left
    (fun fm seq => add_items fm (Dict.items (count_pair_frequencies seq)))
    sequence_list Dict.empty.

(** The body of [for i in range(self.max_iterations)], with [n] iterations
    left; [break] returns the current state. *)
Fixpoint train_loop (n : nat) (lfl : Z) (vocab : Dict.t)
  (current_sequence_list : list (list Symbol))
  : Dict.t * list (list Symbol) :=
  match n with
  | O => (vocab, current_sequence_list)
  | S n' =>
      let freq_map := aggregate current_sequence_list in
      let frequent_pairs := find_most_frequent_pairs lfl freq_map in
      match frequent_pairs with
      | [] => (vocab, current_sequence_list)
      | _ :: _ =>
          let vocab' := update_vocabulary vocab frequent_pairs in
          train_loop n' lfl vocab'
            (map (fun seq => compress_sequence seq vocab')
               current_sequence_list)
      end
  end.

(** [chunk.encode('utf-8')]: a text is held as its UTF-8 byte string. *)
Definition encode_utf8 (chunk : string) : list Symbol :=
  map (fun c => Z.of_N (N_of_ascii c)) (list_ascii_of_string chunk).

Section Training.

(** [regex_chunking] calls the third-party [regex] engine with Unicode
    classes; the trainer only needs the list of chunks it returns. *)
Variable regex_chunking : string -> list string.

Definition train_sequences (self : BytePairEncoder)
  (sequence_list : list (list Symbol)) : BytePairEncoder :=
  let '(v, _) :=
    train_loop (Z.to_nat (max_iterations self))
      (lower_frequency_limit self) (vocab self) sequence_list in
  mkEncoder (lower_frequency_limit self) (max_iterations self) v.

Definition train_bpe (self : BytePairEncoder) (train_text : string)
  : BytePairEncoder :=
  train_sequences self (map encode_utf8 (regex_chunking train_text)).

End Training.

(** [get_vocabulary] *)
Definition get_vocabulary (self : BytePairEncoder) : Dict.t := vocab self.

(** * Definitions used to state the properties *)

(** The pass written as a recursion on the part of the sequence that is
    still to be read: the scan position is the number of symbols already
    consumed.  [compress_sequence_scan] shows the [while] loop of the source
    computes it. *)
Fixpoint merge_scan (vocab : Dict.t) (rest : list Symbol) : list Symbol :=
  match rest with
  | [] => []
  | a :: tl =>
      match tl with
      | [] => [a]
      | b :: tl' =>
          match Dict.get vocab (a, b) with
          | Some tok => tok :: merge_scan vocab tl'
          | None => a :: merge_scan vocab tl
          end
      end
  end.

(** No adjacent pair of the sequence is a key of the vocabulary. *)
Definition no_adjacent_key (vocab : Dict.t) (sequence : list Symbol) : Prop :=
  forall i, 0 <= i < len sequence - 1 ->
    Dict.mem vocab (getitem sequence i, getitem sequence (i + 1)) = false.

(** The states [(i, out)] the scan passes through, in the specification's
    own terms: it starts at position 0 with nothing emitted; at a pair-start
    position [0 <= i <= len - 2] it either merges (emit the mapped symbol,
    advance by 2) or keeps (emit the current symbol, advance by 1). *)
Inductive scan_reaches (sequence : list Symbol) (vocab : Dict.t)
  : Z -> list Symbol -> Prop :=
| scan_start : scan_reaches sequence vocab 0 []
| scan_merge i out tok :
    scan_reaches sequence vocab i out ->
    0 <= i <= len sequence - 2 ->
    Dict.get vocab (getitem sequence i, getitem sequence (i + 1)) = Some tok ->
    scan_reaches sequence vocab (i + 2) (out ++ [tok])
| scan_keep i out :
    scan_reaches sequence vocab i out ->
    0 <= i <= len sequence - 2 ->
    Dict.mem vocab (getitem sequence i, getitem sequence (i + 1)) = false ->
    scan_reaches sequence vocab (i + 1) (out ++ [getitem sequence i]).

(** The entries [(p0, next), (p1, next + 1), ...]: the pairs of a list
    numbered consecutively in the order of the list. *)
Fixpoint number_from (next : Z) (pairs : list Pair) : Dict.t :=
  match pairs with
  | [] => []
  | p :: rest => (p, next) :: number_from (next + 1) rest
  end.

(** An invalid configuration in the specification's sense. *)
Definition invalid_configuration (lfl max_iter : Z) : Prop :=
  max_iter <= 0 \/ lfl < 0.

(** The target frequency of the specification:
    [T = max(max(table.values()) if non-empty else 0, L)]. *)
Definition target_frequency (lfl : Z) (freq_map : Dict.t) : Z :=
  Z.max (if Dict.is_empty freq_map then 0 else py_max (Dict.values freq_map))
        lfl.

(** One run of [train_bpe] seen step by step.  A state holds the loop
    variable [i] of [for i in range(self.max_iterations)], [self.vocab] and
    [current_sequence_list]; the loop is [Iterating] until it leaves through
    [break] ([Converged]) or because the range is used up ([Exhausted]). *)
Inductive phase : Type := Iterating | Converged | Exhausted.

Record trainer := mkTrainer {
  phase_of : phase;
  iteration : Z;
  cur_vocab : Dict.t;
  cur_sequences : list (list Symbol)
}.

Inductive train_step (lfl max_iter : Z) : trainer -> trainer -> Prop :=
| step_exhausted i v s :
    max_iter <= i ->
    train_step lfl max_iter
      (mkTrainer Iterating i v s) (mkTrainer Exhausted i v s)
| step_converged i v s :
    i < max_iter ->
    find_most_frequent_pairs lfl (aggregate s) = [] ->
    train_step lfl max_iter
      (mkTrainer Iterating i v s) (mkTrainer Converged i v s)
| step_merge i v s p ps :
    i < max_iter ->
    find_most_frequent_pairs lfl (aggregate s) = p :: ps ->
    train_step lfl max_iter
      (mkTrainer Iterating i v s)
      (mkTrainer Iterating (i + 1)
         (update_vocabulary v (p :: ps))
         (map (fun seq => compress_sequence seq (update_vocabulary v (p :: ps)))
            s)).

(** A complete run: steps up to a state that is no longer [Iterating]. *)
Inductive train_run (lfl max_iter : Z) : trainer -> trainer -> Prop :=
| run_done t :
    phase_of t <> Iterating -> train_run lfl max_iter t t
| run_step t t' t'' :
    train_step lfl max_iter t t' ->
    train_run lfl max_iter t' t'' ->
    train_run lfl max_iter t t''.

(** The state in which [train_bpe] enters its loop. *)
Definition start_state (regex_chunking : string -> list string)
  (self : BytePairEncoder) (train_text : string) : trainer :=
  mkTrainer Iterating 0 (vocab self)
    (map encode_utf8 (regex_chunking train_text)).

(** A pre-tokenizer that returns the text as a single chunk, which is what
    the pattern of [regex_chunking] does on a run of letters. *)
Definition single_chunk (text : string) : list string := [text].

(** *** Counting *)

(** The number of positions [i] with [(seq[i], seq[i+1]) = p]. *)
Fixpoint occurrences (p : Pair) (sequence : list Symbol) : Z :=
  match sequence with
  | [] => 0
  | a :: tl =>
      match tl with
      | [] => 0
      | b :: _ => (if pair_eqb p (a, b) then 1 else 0) + occurrences p tl
      end
  end.

(** The count a frequency table holds for a pair, 0 for an absent pair,
    as reading a [defaultdict(int)] gives it. *)
Definition count_of (d : Dict.t) (p : Pair) : Z :=
  match Dict.get d p with Some c => c | None => 0 end.

(** The sum of the values of a table. *)
Definition sum_values (d : Dict.t) : Z := fold_right Z.add 0 (Dict.values d).

(** The occurrences of a pair in a corpus, chunk by chunk. *)
Definition corpus_occurrences (p : Pair) (sequence_list : list (list Symbol))
  : Z :=
  fold_right (fun seq acc => occurrences p seq + acc) 0 sequence_list.

(** The number of symbols of a corpus. *)
Definition total_len (sequence_list : list (list Symbol)) : Z :=
  fold_right (fun seq acc => len seq + acc) 0 sequence_list.

(** The sum of the values of the entries of an item list under a key. *)
Definition entry_sum (p : Pair) (its : list (Pair * Z)) : Z :=
  fold_right
    (fun kv acc => (if pair_eqb p (fst kv) then snd kv else 0) + acc) 0 its.

(** *** Undoing merges *)

(** The pair registered under an identifier, if any. *)
Fixpoint key_of_value (vocab : Dict.t) (x : Symbol) : option Pair :=
  match vocab with
  | [] => None
  | (k, v) :: d => if v =? x then Some k else key_of_value d x
  end.

(** A merged symbol is replaced by the pair it stands for; any other symbol
    is kept. *)
Definition unmerge (vocab : Dict.t) (x : Symbol) : list Symbol :=
  match key_of_value vocab x with
  | Some (a, b) => [a; b]
  | None => [x]
  end.

(** *** Order of first occurrence *)




(** *** Encoder objects and the dicts they share *)

(** [__init__] stores the dict it is given, not a copy ([self.vocab =
    vocabulary]), and [_update_vocabulary] writes into that dict.  To
    follow two encoders in one process, dicts are objects in a store and an
    encoder holds a reference.  The default argument [vocabulary = {}] is
    evaluated once, when the class body runs: it is one dict, at reference
    [default_vocabulary], given to every encoder built without a
    vocabulary. *)
Definition store := list Dict.t.




(** In-place mutation of the dict at a reference. *)
Fixpoint store_set (h : store) (r : nat) (d : Dict.t) : store :=
  match h with
  | [] => []
  | x :: h' =>
      match r with
      | O => d :: h'
      | S r' => x :: store_set h' r' d
      end
  end.






(** * Properties *)

(** ** Lists and indices *)

Lemma list_ind2 (P : list Symbol -> Prop) :
  P [] ->
  (forall a, P [a]) ->
  (forall a b l, P l -> P (b :: l) -> P (a :: b :: l)) ->
  forall l, P l.
Proof.
  intros H0 H1 H2 l.
  assert (HH : P l /\ forall a, P (a :: l)).
  { induction l as [|b l [IHa IHb]]; split; auto. }
  apply HH.
Qed.

Lemma len_app {A} (l1 l2 : list A) : len (l1 ++ l2) = len l1 + len l2.
Proof. unfold len. rewrite length_app. lia. Qed.

Lemma len_cons {A} (a : A) (l : list A) : len (a :: l) = len l + 1.
Proof. unfold len. cbn [length]. lia. Qed.

Lemma len_nonneg {A} (l : list A) : 0 <= len l.
Proof. unfold len. lia. Qed.

Lemma getitem_app_here pre a suf : getitem (pre ++ a :: suf) (len pre) = a.
Proof.
  unfold getitem, len. rewrite Nat2Z.id.
  rewrite app_nth2 by lia. now rewrite Nat.sub_diag.
Qed.

Lemma getitem_app_next pre a b suf :
  getitem (pre ++ a :: b :: suf) (len pre + 1) = b.
Proof.
  replace (pre ++ a :: b :: suf) with ((pre ++ [a]) ++ b :: suf)
    by now rewrite <- app_assoc.
  replace (len pre + 1) with (len (pre ++ [a]))
    by (rewrite len_app; reflexivity).
  apply getitem_app_here.
Qed.

Lemma getitem_cons a l i : 0 <= i -> getitem (a :: l) (i + 1) = getitem l i.
Proof.
  intros Hi. unfold getitem.
  replace (Z.to_nat (i + 1)) with (S (Z.to_nat i)) by lia. reflexivity.
Qed.

Lemma getlast_snoc pre a : getlast (pre ++ [a]) = a.
Proof. unfold getlast. apply last_last. Qed.

(** ** The compression pass *)

Lemma merge_scan_cons2 vocab a b l :
  merge_scan vocab (a :: b :: l) =
  match Dict.get vocab (a, b) with
  | Some tok => tok :: merge_scan vocab l
  | None => a :: merge_scan vocab (b :: l)
  end.
Proof. reflexivity. Qed.

Lemma compress_loop_from vocab fuel :
  forall suf pre acc,
    (length suf <= fuel)%nat ->
    (let '(i, c) := compress_loop fuel (pre ++ suf) vocab (len pre) acc in
     if i =? len (pre ++ suf) - 1 then c ++ [getlast (pre ++ suf)] else c)
    = acc ++ merge_scan vocab suf.
Proof.
  induction fuel as [|fuel IH]; intros suf pre acc Hfuel.
  - destruct suf as [|a suf]; [|cbn in Hfuel; lia].
    cbn. rewrite !app_nil_r.
    destruct (Z.eqb_spec (len pre) (len pre - 1)); [lia|]. reflexivity.
  - destruct suf as [|a [|b suf]].
    + cbn [compress_loop merge_scan]. rewrite !app_nil_r.
      destruct (Z.ltb_spec (len pre) (len pre - 1)); [lia|].
      destruct (Z.eqb_spec (len pre) (len pre - 1)); [lia|]. reflexivity.
    + cbn [compress_loop merge_scan]. rewrite len_app, len_cons.
      change (len (@nil Symbol)) with 0.
      destruct (Z.ltb_spec (len pre) (len pre + (0 + 1) - 1)); [lia|].
      destruct (Z.eqb_spec (len pre) (len pre + (0 + 1) - 1)); [|lia].
      now rewrite getlast_snoc.
    + cbn [compress_loop merge_scan].
      pose proof (len_nonneg suf) as Hs.
      rewrite len_app, !len_cons.
      destruct (Z.ltb_spec (len pre) (len pre + (len suf + 1 + 1) - 1)); [|lia].
      rewrite getitem_app_here, getitem_app_next.
      cbn [length] in Hfuel.
      destruct (Dict.get vocab (a, b)) as [tok|].
      * specialize (IH suf (pre ++ [a; b]) (acc ++ [tok])).
        rewrite <- app_assoc in IH. cbn [app] in IH.
        rewrite len_app in IH. change (len [a; b]) with 2 in IH.
        rewrite len_app, !len_cons in IH.
        rewrite IH by lia. now rewrite <- app_assoc.
      * specialize (IH (b :: suf) (pre ++ [a]) (acc ++ [a])).
        rewrite <- app_assoc in IH. cbn [app] in IH.
        rewrite len_app in IH. change (len [a]) with 1 in IH.
        rewrite len_app, !len_cons in IH.
        rewrite IH by (cbn [length]; lia). now rewrite <- app_assoc.
Qed.

Lemma compress_sequence_scan sequence vocab :
  compress_sequence sequence vocab = merge_scan vocab sequence.
Proof.
  unfold compress_sequence.
  pose proof (compress_loop_from vocab (length sequence) sequence [] []
                (Nat.le_refl _)) as H.
  cbn [app] in H. change (len (@nil Symbol)) with 0 in H.
  destruct (compress_loop (length sequence) sequence vocab 0 []) as [i c].
  exact H.
Qed.

Lemma merge_scan_length_le vocab :
  forall l, (length (merge_scan vocab l) <= length l)%nat.
Proof.
  induction l as [| a | a b l IHl IHbl] using list_ind2.
  - apply Nat.le_refl.
  - apply Nat.le_refl.
  - rewrite merge_scan_cons2.
    destruct (Dict.get vocab (a, b)); cbn [length] in *; lia.
Qed.

Lemma merge_scan_length_half vocab :
  forall l, (length l <= 2 * length (merge_scan vocab l))%nat.
Proof.
  induction l as [| a | a b l IHl IHbl] using list_ind2.
  - cbn; lia.
  - cbn; lia.
  - rewrite merge_scan_cons2.
    destruct (Dict.get vocab (a, b)); cbn [length] in *; lia.
Qed.

Lemma no_adjacent_key_tail vocab a l :
  no_adjacent_key vocab (a :: l) -> no_adjacent_key vocab l.
Proof.
  intros H i Hi.
  specialize (H (i + 1)). rewrite len_cons in H.
  rewrite !getitem_cons in H by lia. apply H. lia.
Qed.

Lemma merge_scan_fixpoint vocab :
  forall l, no_adjacent_key vocab l -> merge_scan vocab l = l.
Proof.
  induction l as [| a | a b l IHl IHbl] using list_ind2; intros H;
    try reflexivity.
  rewrite merge_scan_cons2.
  pose proof (H 0) as H0. rewrite !len_cons in H0.
  pose proof (len_nonneg l).
  specialize (H0 ltac:(lia)).
  change (getitem (a :: b :: l) 0) with a in H0.
  change (getitem (a :: b :: l) (0 + 1)) with b in H0.
  unfold Dict.mem in H0.
  destruct (Dict.get vocab (a, b)); [discriminate|].
  f_equal. apply IHbl. eapply no_adjacent_key_tail; eassumption.
Qed.

(** *** The scan, position by position *)

Lemma skipn_cons_nth (l : list Symbol) :
  forall n, (n < length l)%nat -> skipn n l = nth n l 0 :: skipn (S n) l.
Proof.
  induction l as [|a l IH]; intros n Hn; cbn [length] in Hn; [lia|].
  destruct n as [|n]; [reflexivity|].
  cbn [skipn nth]. apply IH. lia.
Qed.

Lemma getlast_nth (l : list Symbol) :
  l <> [] -> getlast l = nth (length l - 1) l 0.
Proof.
  intros Hne. destruct (exists_last Hne) as [l' [a ->]].
  rewrite getlast_snoc, length_app. cbn [length].
  rewrite app_nth2 by lia.
  replace (length l' + 1 - 1 - length l')%nat with 0%nat by lia. reflexivity.
Qed.

Lemma skipn_pair (l : list Symbol) i :
  0 <= i <= len l - 2 ->
  skipn (Z.to_nat i) l =
  getitem l i :: getitem l (i + 1) :: skipn (Z.to_nat (i + 2)) l.
Proof.
  unfold len, getitem. intros Hi.
  rewrite (skipn_cons_nth l (Z.to_nat i)) by lia.
  rewrite (skipn_cons_nth l (S (Z.to_nat i))) by lia.
  replace (Z.to_nat (i + 1)) with (S (Z.to_nat i)) by lia.
  replace (Z.to_nat (i + 2)) with (S (S (Z.to_nat i))) by lia.
  reflexivity.
Qed.

Lemma scan_reaches_inv sequence vocab i out :
  scan_reaches sequence vocab i out ->
  0 <= i <= len sequence /\
  out ++ merge_scan vocab (skipn (Z.to_nat i) sequence)
  = merge_scan vocab sequence.
Proof.
  induction 1 as [| i out tok Hr [IHi IHo] Hi Hget | i out Hr [IHi IHo] Hi Hmem].
  - pose proof (len_nonneg sequence). split; [lia|reflexivity].
  - split; [lia|]. rewrite <- IHo, (skipn_pair sequence i Hi).
    rewrite merge_scan_cons2, Hget. now rewrite <- app_assoc.
  - split; [lia|]. rewrite <- IHo, (skipn_pair sequence i Hi).
    rewrite merge_scan_cons2. unfold Dict.mem in Hmem.
    destruct (Dict.get vocab _); [discriminate|].
    rewrite <- app_assoc. cbn [app]. do 2 f_equal.
    replace (Z.to_nat (i + 1)) with (S (Z.to_nat i)) by lia.
    unfold len in Hi.
    rewrite (skipn_cons_nth sequence (S (Z.to_nat i))) by lia.
    unfold getitem.
    replace (Z.to_nat (i + 1)) with (S (Z.to_nat i)) by lia.
    replace (Z.to_nat (i + 2)) with (S (S (Z.to_nat i))) by lia.
    reflexivity.
Qed.

Lemma scan_completes vocab :
  forall suf pre out,
    scan_reaches (pre ++ suf) vocab (len pre) out ->
    exists i out',
      scan_reaches (pre ++ suf) vocab i out' /\ len (pre ++ suf) - 2 < i.
Proof.
  induction suf as [| a | a b l IHl IHbl] using list_ind2; intros pre out Hr.
  - exists (len pre), out. split; [exact Hr|]. rewrite app_nil_r. lia.
  - exists (len pre), out. split; [exact Hr|].
    rewrite len_app. change (len [a]) with 1. lia.
  - pose proof (len_nonneg pre). pose proof (len_nonneg l).
    assert (Hpos : 0 <= len pre <= len (pre ++ a :: b :: l) - 2)
      by (rewrite len_app, !len_cons; lia).
    destruct (Dict.get vocab (a, b)) as [tok|] eqn:Hget.
    + assert (Hm : scan_reaches (pre ++ a :: b :: l) vocab (len pre + 2)
                     (out ++ [tok])).
      { apply scan_merge; [exact Hr | exact Hpos |].
        now rewrite getitem_app_here, getitem_app_next. }
      replace (pre ++ a :: b :: l) with ((pre ++ [a; b]) ++ l) in *
        by now rewrite <- app_assoc.
      replace (len pre + 2) with (len (pre ++ [a; b])) in Hm
        by (rewrite len_app; reflexivity).
      exact (IHl _ _ Hm).
    + assert (Hk : scan_reaches (pre ++ a :: b :: l) vocab (len pre + 1)
                     (out ++ [getitem (pre ++ a :: b :: l) (len pre)])).
      { apply scan_keep; [exact Hr | exact Hpos |].
        unfold Dict.mem.
        now rewrite getitem_app_here, getitem_app_next, Hget. }
      replace (pre ++ a :: b :: l) with ((pre ++ [a]) ++ b :: l) in *
        by now rewrite <- app_assoc.
      replace (len pre + 1) with (len (pre ++ [a])) in Hk
        by (rewrite len_app; reflexivity).
      exact (IHbl _ _ Hk).
Qed.

(** The [while] loop of the source walks through scan states and, given
    [length sequence] iterations, leaves by its own test: the position it
    returns is past the last pair-start position. *)
Lemma compress_loop_exit vocab fuel :
  forall suf pre acc,
    (length suf <= fuel)%nat ->
    scan_reaches (pre ++ suf) vocab (len pre) acc ->
    scan_reaches (pre ++ suf) vocab
      (fst (compress_loop fuel (pre ++ suf) vocab (len pre) acc))
      (snd (compress_loop fuel (pre ++ suf) vocab (len pre) acc)) /\
    len (pre ++ suf) - 2
    < fst (compress_loop fuel (pre ++ suf) vocab (len pre) acc).
Proof.
  induction fuel as [|fuel IH]; intros suf pre acc Hfuel Hr.
  - destruct suf as [|a suf]; [|cbn in Hfuel; lia].
    cbn [compress_loop fst snd]. split; [exact Hr|].
    rewrite len_app. change (len (@nil Symbol)) with 0. lia.
  - destruct suf as [|a [|b suf]]; cbn [compress_loop].
    + rewrite len_app. change (len (@nil Symbol)) with 0.
      destruct (Z.ltb_spec (len pre) (len pre + 0 - 1)); [lia|].
      cbn [fst snd]. split; [exact Hr|lia].
    + rewrite len_app. change (len [a]) with 1.
      destruct (Z.ltb_spec (len pre) (len pre + 1 - 1)); [lia|].
      cbn [fst snd]. split; [exact Hr|lia].
    + pose proof (len_nonneg pre). pose proof (len_nonneg suf).
      assert (Hpos : 0 <= len pre <= len (pre ++ a :: b :: suf) - 2)
        by (rewrite len_app, !len_cons; lia).
      destruct (Z.ltb_spec (len pre) (len (pre ++ a :: b :: suf) - 1));
        [|lia].
      rewrite getitem_app_here, getitem_app_next.
      cbn [length] in Hfuel.
      destruct (Dict.get vocab (a, b)) as [tok|] eqn:Hget.
      * assert (Hm : scan_reaches (pre ++ a :: b :: suf) vocab (len pre + 2)
                       (acc ++ [tok])).
        { apply scan_merge; [exact Hr | exact Hpos |].
          now rewrite getitem_app_here, getitem_app_next. }
        replace (pre ++ a :: b :: suf) with ((pre ++ [a; b]) ++ suf) in *
          by now rewrite <- app_assoc.
        replace (len pre + 2) with (len (pre ++ [a; b])) in *
          by (rewrite len_app; reflexivity).
        apply IH; [lia | exact Hm].
      * assert (Hk : scan_reaches (pre ++ a :: b :: suf) vocab (len pre + 1)
                       (acc ++ [a])).
        { assert (Hmem : Dict.mem vocab
                           (getitem (pre ++ a :: b :: suf) (len pre),
                            getitem (pre ++ a :: b :: suf) (len pre + 1))
                         = false).
          { unfold Dict.mem.
            now rewrite getitem_app_here, getitem_app_next, Hget. }
          pose proof (scan_keep _ _ _ _ Hr Hpos Hmem) as Hk.
          now rewrite getitem_app_here in Hk. }
        replace (pre ++ a :: b :: suf) with ((pre ++ [a]) ++ b :: suf) in *
          by now rewrite <- app_assoc.
        replace (len pre + 1) with (len (pre ++ [a])) in *
          by (rewrite len_app; reflexivity).
        apply IH; [cbn [length]; lia | exact Hk].
Qed.

Lemma scan_finished_result sequence vocab i out :
  scan_reaches sequence vocab i out ->
  len sequence - 2 < i ->
  merge_scan vocab sequence =
  if i =? len sequence - 1 then out ++ [getlast sequence] else out.
Proof.
  intros Hr Hfin.
  destruct (scan_reaches_inv _ _ _ _ Hr) as [Hi Ho].
  destruct (Z.eqb_spec i (len sequence - 1)) as [Heq|Hne].
  - rewrite <- Ho. f_equal.
    assert (Hne : sequence <> []) by (intros ->; cbn in *; lia).
    unfold len in *.
    rewrite (skipn_cons_nth sequence (Z.to_nat i)) by lia.
    rewrite skipn_all2 by lia.
    rewrite (getlast_nth _ Hne).
    replace (length sequence - 1)%nat with (Z.to_nat i) by lia.
    reflexivity.
  - rewrite <- Ho. unfold len in *.
    rewrite skipn_all2 by lia. cbn. now rewrite app_nil_r.
Qed.

(** C4. One compression pass is the left-to-right scan over the pair-start
    positions [0 .. len-2]: the loop of the source goes from position 0
    through merge steps (emit the mapped symbol, advance by 2) and keep
    steps (emit the current symbol, advance by 1) and ends past the last
    pair-start position; for every scan that has ended, the pass returns its
    output with the last element of the sequence appended exactly when the
    final position is [len-1]; and a sequence of length 0 or 1 is returned
    unchanged. *)
Theorem compress_sequence_scan_rule :
  forall (sequence : list Symbol) (vocab : Dict.t),
    (scan_reaches sequence vocab
       (fst (compress_loop (length sequence) sequence vocab 0 []))
       (snd (compress_loop (length sequence) sequence vocab 0 [])) /\
     len sequence - 2
     < fst (compress_loop (length sequence) sequence vocab 0 [])) /\
    (forall i out,
        scan_reaches sequence vocab i out ->
        len sequence - 2 < i ->
        compress_sequence sequence vocab =
        if i =? len sequence - 1 then out ++ [getlast sequence] else out) /\
    (len sequence <= 1 -> compress_sequence sequence vocab = sequence).
Proof.
  intros sequence vocab. split; [|split].
  - exact (compress_loop_exit vocab (length sequence) sequence [] []
             (Nat.le_refl _) (scan_start _ _)).
  - intros i out Hr Hfin. rewrite compress_sequence_scan.
    now apply scan_finished_result.
  - intros Hlen. rewrite compress_sequence_scan.
    destruct sequence as [|a [|b l]]; try reflexivity.
    rewrite !len_cons in Hlen. pose proof (len_nonneg l). lia.
Qed.

Lemma compress_sequence_scan_rule_witness :
  compress_sequence [97] [((97, 97), 256)] = [97].
Proof.
  apply (proj2 (proj2 (compress_sequence_scan_rule [97] [((97, 97), 256)]))).
  vm_compute. discriminate.
Defined.

(** C7. A compression pass never lengthens a sequence. *)
Theorem compress_sequence_length_le :
  forall (sequence : list Symbol) (vocab : Dict.t),
    len (compress_sequence sequence vocab) <= len sequence.
Proof.
  intros sequence vocab. rewrite compress_sequence_scan. unfold len.
  pose proof (merge_scan_length_le vocab sequence). lia.
Qed.

(** C10. A compression pass at most halves a sequence: the output has at
    least [ceil(len / 2)] symbols, that is [(len + 1) / 2] in integer
    division, or equivalently [len <= 2 * len(output)]. *)
Theorem compress_sequence_length_half :
  forall (sequence : list Symbol) (vocab : Dict.t),
    (len sequence + 1) / 2 <= len (compress_sequence sequence vocab) /\
    len sequence <= 2 * len (compress_sequence sequence vocab).
Proof.
  intros sequence vocab. rewrite compress_sequence_scan. unfold len.
  pose proof (merge_scan_length_half vocab sequence) as H.
  split; [|lia].
  apply Z.lt_succ_r, Z.div_lt_upper_bound; lia.
Qed.

(** C8. When no adjacent pair of the sequence is a key of the vocabulary,
    a compression pass returns the sequence unchanged. *)
Theorem compress_sequence_fixpoint :
  forall (sequence : list Symbol) (vocab : Dict.t),
    no_adjacent_key vocab sequence ->
    compress_sequence sequence vocab = sequence.
Proof.
  intros sequence vocab H. rewrite compress_sequence_scan.
  now apply merge_scan_fixpoint.
Qed.

Lemma compress_sequence_fixpoint_witness :
  no_adjacent_key [((97, 97), 256)] [256; 97; 98] /\
  compress_sequence [256; 97; 98] [((97, 97), 256)] = [256; 97; 98].
Proof.
  assert (H : no_adjacent_key [((97, 97), 256)] [256; 97; 98]).
  { intros i Hi. change (len [256; 97; 98]) with 3 in Hi.
    assert (Hc : i = 0 \/ i = 1) by lia.
    destruct Hc as [-> | ->]; reflexivity. }
  split; [exact H|].
  exact (compress_sequence_fixpoint [256; 97; 98] [((97, 97), 256)] H).
Defined.

(** ** Dict lemmas *)

Lemma pair_eqb_eq (p q : Pair) : pair_eqb p q = true <-> p = q.
Proof.
  destruct p as [a b], q as [c d]. unfold pair_eqb. cbn [fst snd].
  rewrite andb_true_iff, !Z.eqb_eq. split.
  - intros [-> ->]. reflexivity.
  - intros [= -> ->]. split; reflexivity.
Qed.

Lemma pair_eqb_refl (p : Pair) : pair_eqb p p = true.
Proof. now apply pair_eqb_eq. Qed.

Lemma pair_eqb_neq (p q : Pair) : p <> q -> pair_eqb p q = false.
Proof.
  intros Hne. destruct (pair_eqb p q) eqn:E; [|reflexivity].
  apply pair_eqb_eq in E. contradiction.
Qed.

Lemma pair_eq_dec (p q : Pair) : {p = q} + {p <> q}.
Proof.
  destruct (pair_eqb p q) eqn:E.
  - left. now apply pair_eqb_eq.
  - right. intros H. apply pair_eqb_eq in H. congruence.
Qed.

Lemma get_set_same d k v : Dict.get (Dict.set d k v) k = Some v.
Proof.
  induction d as [|[k' v'] d IH]; cbn [Dict.set Dict.get].
  - now rewrite pair_eqb_refl.
  - destruct (pair_eqb k k') eqn:E; cbn [Dict.get]; rewrite E; auto.
Qed.

Lemma get_set_other d k v k' :
  k' <> k -> Dict.get (Dict.set d k v) k' = Dict.get d k'.
Proof.
  intros Hne. induction d as [|[k0 v0] d IH]; cbn [Dict.set Dict.get].
  - now rewrite (pair_eqb_neq _ _ Hne).
  - destruct (pair_eqb k k0) eqn:E; cbn [Dict.get].
    + apply pair_eqb_eq in E. subst k0.
      now rewrite (pair_eqb_neq _ _ Hne).
    + destruct (pair_eqb k' k0); auto.
Qed.

Lemma get_Some_In d k v : Dict.get d k = Some v -> In (k, v) d.
Proof.
  induction d as [|[k' v'] d IH]; cbn [Dict.get]; [discriminate|].
  destruct (pair_eqb k k') eqn:E.
  - intros [= ->]. apply pair_eqb_eq in E. subst. now left.
  - intros H. right. auto.
Qed.

Lemma get_None_not_In d k : Dict.get d k = None -> ~ In k (Dict.keys d).
Proof.
  induction d as [|[k' v'] d IH]; cbn [Dict.get Dict.keys map fst In]; auto.
  destruct (pair_eqb k k') eqn:E; [discriminate|].
  intros H [Heq | Hin].
  - subst. now rewrite pair_eqb_refl in E.
  - now apply IH.
Qed.

Lemma fold_left_max_ge (xs : list Z) :
  forall a, a <= fold_left Z.max xs a /\
            forall x, In x xs -> x <= fold_left Z.max xs a.
Proof.
  induction xs as [|y xs IH]; intros a; cbn [fold_left].
  - split; [lia | intros x []].
  - destruct (IH (Z.max a y)) as [Ha Hx]. split; [lia|].
    intros x [-> | Hin]; [lia | auto].
Qed.

Lemma py_max_ge (l : list Z) x : In x l -> x <= py_max l.
Proof.
  destruct l as [|a xs]; [intros []|]. cbn [py_max].
  destruct (fold_left_max_ge xs a) as [Ha Hx].
  intros [<- | Hin]; auto.
Qed.

Lemma get_le_py_max d k v : Dict.get d k = Some v -> v <= py_max (Dict.values d).
Proof.
  intros H. apply py_max_ge. apply get_Some_In in H.
  unfold Dict.values. change v with (snd (k, v)). now apply in_map.
Qed.

(** ** Registration *)

Lemma assign_tokens_other p :
  forall pairs vocab next,
    ~ In p pairs ->
    Dict.get (assign_tokens vocab pairs next) p = Dict.get vocab p.
Proof.
  induction pairs as [|q pairs IH]; intros vocab next Hnin;
    cbn [assign_tokens]; [reflexivity|].
  rewrite IH by (intros H; apply Hnin; now right).
  apply get_set_other. intros ->. apply Hnin. now left.
Qed.

Lemma assign_tokens_in p :
  forall pairs vocab next,
    In p pairs ->
    exists tok, Dict.get (assign_tokens vocab pairs next) p = Some tok /\
                next <= tok < next + len pairs.
Proof.
  induction pairs as [|q pairs IH]; intros vocab next Hin; [destruct Hin|].
  cbn [assign_tokens]. rewrite len_cons. pose proof (len_nonneg pairs).
  destruct (in_dec pair_eq_dec p pairs) as [Hin' | Hnin].
  - destruct (IH (Dict.set vocab q next) (next + 1) Hin') as [tok [Hg Hb]].
    exists tok. split; [exact Hg | lia].
  - destruct Hin as [-> | Hin]; [|contradiction].
    exists next. rewrite assign_tokens_other by exact Hnin.
    split; [apply get_set_same | lia].
Qed.

Lemma first_token_gt vocab p old :
  Dict.get vocab p = Some old -> old < first_token vocab.
Proof.
  intros H. unfold first_token.
  destruct vocab as [|e vocab]; [discriminate|]. cbn [Dict.is_empty].
  apply get_le_py_max in H. lia.
Qed.

Lemma set_absent d k v : Dict.get d k = None -> Dict.set d k v = d ++ [(k, v)].
Proof.
  induction d as [|[k' v'] d IH]; cbn [Dict.get Dict.set app]; [reflexivity|].
  destruct (pair_eqb k k'); [discriminate|].
  intros H. now rewrite IH.
Qed.

Lemma assign_tokens_fresh :
  forall pairs vocab next,
    NoDup pairs ->
    (forall p, In p pairs -> Dict.get vocab p = None) ->
    assign_tokens vocab pairs next = vocab ++ number_from next pairs.
Proof.
  induction pairs as [|q pairs IH]; intros vocab next Hnd Hnew;
    cbn [assign_tokens number_from].
  - now rewrite app_nil_r.
  - inversion Hnd as [|? ? Hq Hnd']; subst.
    rewrite IH; [|exact Hnd'|].
    + rewrite set_absent by (apply Hnew; now left).
      now rewrite <- app_assoc.
    + intros p Hp. rewrite get_set_other.
      * apply Hnew. now right.
      * intros ->. contradiction.
Qed.

Lemma update_vocabulary_fresh vocab pairs :
  NoDup pairs ->
  (forall p, In p pairs -> Dict.get vocab p = None) ->
  update_vocabulary vocab pairs
  = vocab ++ number_from (first_token vocab) pairs.
Proof. apply assign_tokens_fresh. Qed.

(** C1. Registration into an empty vocabulary starts numbering at 0, not at
    256: the first pair registered receives the identifier 0, which is also
    the value of a raw byte. *)
Theorem update_vocabulary_empty_starts_at_zero :
  forall (p : Pair) (rest : list Pair),
    ~ In p rest ->
    first_token Dict.empty = 0 /\
    Dict.get (update_vocabulary Dict.empty (p :: rest)) p = Some 0.
Proof.
  intros p rest Hnin. split; [reflexivity|].
  unfold update_vocabulary. cbn [assign_tokens].
  rewrite assign_tokens_other by exact Hnin.
  apply get_set_same.
Qed.

Lemma update_vocabulary_empty_starts_at_zero_witness :
  update_vocabulary Dict.empty [(97, 97)] = [((97, 97), 0)] /\
  Dict.get (update_vocabulary Dict.empty [(97, 97)]) (97, 97) = Some 0.
Proof.
  split; [reflexivity|].
  apply (update_vocabulary_empty_starts_at_zero (97, 97) []).
  intros [].
Defined.

(** C5 as stated fails: a pair that is already present and is registered
    again receives a new identifier. *)
Lemma update_vocabulary_keeps_identifier_counterexample :
  Dict.get [((97, 97), 256)] (97, 97) = Some 256 /\
  Dict.get (update_vocabulary [((97, 97), 256)] [(97, 97)]) (97, 97)
  = Some 257 /\
  ~ (forall vocab pairs p old,
        Dict.get vocab p = Some old ->
        Dict.get (update_vocabulary vocab pairs) p = Some old).
Proof.
  split; [reflexivity|]. split; [reflexivity|].
  intros H.
  specialize (H [((97, 97), 256)] [(97, 97)] (97, 97) 256 eq_refl).
  discriminate H.
Qed.

(** C5, amended. Registration keeps the identifier of every pair of the
    vocabulary that is not among the pairs being registered; a pair that is
    already present and is registered again is overwritten with a new,
    strictly larger identifier. *)
Theorem update_vocabulary_identifier :
  forall (vocab : Dict.t) (pairs : list Pair) (p : Pair) (old : Symbol),
    Dict.get vocab p = Some old ->
    (~ In p pairs ->
     Dict.get (update_vocabulary vocab pairs) p = Some old) /\
    (In p pairs ->
     exists new,
       Dict.get (update_vocabulary vocab pairs) p = Some new /\ old < new).
Proof.
  intros vocab pairs p old Hget. unfold update_vocabulary. split.
  - intros Hnin. now rewrite assign_tokens_other.
  - intros Hin.
    destruct (assign_tokens_in p pairs vocab (first_token vocab) Hin)
      as [tok [Hg Hb]].
    exists tok. split; [exact Hg|].
    pose proof (first_token_gt _ _ _ Hget). lia.
Qed.

Lemma update_vocabulary_identifier_witness :
  Dict.get [((97, 97), 256); ((98, 99), 257)] (98, 99) = Some 257 /\
  Dict.get
    (update_vocabulary [((97, 97), 256); ((98, 99), 257)] [(97, 97)])
    (98, 99) = Some 257.
Proof.
  split; [reflexivity|].
  apply (update_vocabulary_identifier
           [((97, 97), 256); ((98, 99), 257)] [(97, 97)] (98, 99) 257
           eq_refl).
  intros [H | []]. discriminate H.
Defined.

(** ** Construction *)

(** C6 as stated fails: the constructor accepts an invalid configuration. *)
Lemma init_rejects_invalid_counterexample :
  invalid_configuration (-1) 0 /\
  init (-1) 0 Dict.empty = Returns (mkEncoder (-1) 0 Dict.empty) /\
  ~ (forall lfl max_iter vocabulary,
        invalid_configuration lfl max_iter ->
        exists msg, init lfl max_iter vocabulary = Raises msg).
Proof.
  split; [left; lia|]. split; [reflexivity|].
  intros H.
  assert (Hinv : invalid_configuration (-1) 0) by (left; lia).
  destruct (H (-1) 0 Dict.empty Hinv) as [msg Hmsg].
  discriminate Hmsg.
Qed.

(** C6, amended. Construction performs no validation: for every
    configuration, valid or not, it succeeds and stores the given values
    unmodified; nothing is rejected and nothing is clamped. *)
Theorem init_stores_configuration :
  forall (lfl max_iter : Z) (vocabulary : Dict.t),
    exists self,
      init lfl max_iter vocabulary = Returns self /\
      lower_frequency_limit self = lfl /\
      max_iterations self = max_iter /\
      vocab self = vocabulary.
Proof.
  intros lfl max_iter vocabulary.
  exists (mkEncoder lfl max_iter vocabulary). repeat split.
Qed.

(** ** Merge selection *)

Lemma get_Some_In_keys d k v : Dict.get d k = Some v -> In k (Dict.keys d).
Proof.
  intros H. apply get_Some_In in H. unfold Dict.keys.
  change k with (fst (k, v)). now apply in_map.
Qed.

Lemma filter_nil_all_false {A} (f : A -> bool) (l : list A) :
  (forall x, In x l -> f x = false) -> filter f l = [].
Proof.
  induction l as [|a l IH]; intros H; cbn [filter]; [reflexivity|].
  rewrite (H a) by now left. apply IH. intros x Hx. apply H. now right.
Qed.

Lemma find_most_frequent_pairs_In lfl freq_map p :
  In p (find_most_frequent_pairs lfl freq_map) <->
  Dict.get freq_map p = Some (target_frequency lfl freq_map).
Proof.
  unfold find_most_frequent_pairs, target_frequency.
  destruct freq_map as [|e fm]; cbn [Dict.is_empty].
  - cbn. split; [intros [] | discriminate].
  - set (d := e :: fm). rewrite filter_In. split.
    + intros [_ Hf]. destruct (Dict.get d p) as [c|]; [|discriminate].
      apply Z.eqb_eq in Hf. now subst c.
    + intros Hg. split; [now apply get_Some_In_keys in Hg|].
      rewrite Hg. apply Z.eqb_refl.
Qed.

Lemma find_most_frequent_pairs_below lfl freq_map :
  py_max (Dict.values freq_map) < lfl ->
  find_most_frequent_pairs lfl freq_map = [].
Proof.
  intros Hlt. unfold find_most_frequent_pairs.
  destruct (Dict.is_empty freq_map); [reflexivity|].
  apply filter_nil_all_false. intros x _.
  destruct (Dict.get freq_map x) as [c|] eqn:Hg; [|reflexivity].
  apply get_le_py_max in Hg. apply Z.eqb_neq. lia.
Qed.

(** C3. The merge selector returns exactly the pairs whose count equals the
    target frequency [T]; it returns nothing when the table is empty or when
    the largest count is below the threshold; and in the training loop an
    empty selection, and only an empty selection, stops the iteration before
    the budget is used up, leaving the vocabulary as it is. *)
Theorem find_most_frequent_pairs_spec :
  forall (lfl : Z) (freq_map : Dict.t),
    (forall p,
        In p (find_most_frequent_pairs lfl freq_map) <->
        Dict.get freq_map p = Some (target_frequency lfl freq_map)) /\
    (freq_map = Dict.empty -> find_most_frequent_pairs lfl freq_map = []) /\
    (py_max (Dict.values freq_map) < lfl ->
     find_most_frequent_pairs lfl freq_map = []) /\
    (forall n vocab sequence_list,
        freq_map = aggregate sequence_list ->
        (find_most_frequent_pairs lfl freq_map = [] ->
         train_loop (S n) lfl vocab sequence_list = (vocab, sequence_list)) /\
        (find_most_frequent_pairs lfl freq_map <> [] ->
         train_loop (S n) lfl vocab sequence_list =
         let vocab' :=
           update_vocabulary vocab (find_most_frequent_pairs lfl freq_map) in
         train_loop n lfl vocab'
           (map (fun seq => compress_sequence seq vocab') sequence_list))).
Proof.
  intros lfl freq_map. split; [|split; [|split]].
  - intros p. apply find_most_frequent_pairs_In.
  - intros ->. reflexivity.
  - apply find_most_frequent_pairs_below.
  - intros n vocab sequence_list ->. cbn [train_loop]. split.
    + intros ->. reflexivity.
    + intros Hne.
      destruct (find_most_frequent_pairs lfl (aggregate sequence_list));
        [contradiction | reflexivity].
Qed.

Lemma find_most_frequent_pairs_spec_witness :
  find_most_frequent_pairs 3 [((97, 98), 2); ((98, 97), 1)] = [].
Proof.
  apply (proj1 (proj2 (proj2
           (find_most_frequent_pairs_spec 3 [((97, 98), 2); ((98, 97), 1)])))).
  vm_compute. reflexivity.
Defined.

(** *** Ties are taken in the key order of the frequency table *)

Lemma In_keys_add d k n q :
  In q (Dict.keys (Dict.add d k n)) <-> q = k \/ In q (Dict.keys d).
Proof.
  induction d as [|[k' v'] d IH]; cbn [Dict.add Dict.keys map fst In].
  - split; [intros [<- | []]; now left | intros [-> | []]; now left].
  - destruct (pair_eqb k k') eqn:E; cbn [map fst In].
    + apply pair_eqb_eq in E. subst k'. intuition congruence.
    + fold (Dict.keys (Dict.add d k n)). fold (Dict.keys d).
      rewrite IH. tauto.
Qed.

Lemma NoDup_keys_add d k n :
  NoDup (Dict.keys d) -> NoDup (Dict.keys (Dict.add d k n)).
Proof.
  induction d as [|[k' v'] d IH]; cbn [Dict.add Dict.keys map fst];
    intros Hnd.
  - constructor; [intros [] | constructor].
  - inversion Hnd as [|? ? Hnin Hnd']; subst.
    destruct (pair_eqb k k') eqn:E; cbn [map fst].
    + constructor; assumption.
    + constructor; [|now apply IH].
      fold (Dict.keys (Dict.add d k n)). rewrite In_keys_add.
      intros [-> | Hin]; [now rewrite pair_eqb_refl in E | contradiction].
Qed.

Lemma NoDup_keys_add_items its :
  forall fm, NoDup (Dict.keys fm) -> NoDup (Dict.keys (add_items fm its)).
Proof.
  unfold add_items.
  induction its as [|kv its IH]; intros fm Hnd; cbn [fold_left];
    [exact Hnd|].
  apply IH. now apply NoDup_keys_add.
Qed.

Lemma NoDup_keys_aggregate sequence_list :
  NoDup (Dict.keys (aggregate sequence_list)).
Proof.
  unfold aggregate.
  assert (H : forall fm, NoDup (Dict.keys fm) ->
               NoDup (Dict.keys
                 (fold_left
                    (fun fm seq =>
                       add_items fm (Dict.items (count_pair_frequencies seq)))
                    sequence_list fm))).
  { induction sequence_list as [|seq l IH]; intros fm Hnd; cbn [fold_left];
      [exact Hnd|].
    apply IH. now apply NoDup_keys_add_items. }
  apply H. constructor.
Qed.

Lemma find_most_frequent_pairs_NoDup lfl freq_map :
  NoDup (Dict.keys freq_map) ->
  NoDup (find_most_frequent_pairs lfl freq_map).
Proof.
  intros Hnd. unfold find_most_frequent_pairs.
  destruct (Dict.is_empty freq_map); [constructor|].
  now apply NoDup_filter.
Qed.

(** The pairs selected in an iteration are pairwise distinct and come in the
    key order of the frequency table, that is in the order of their first
    occurrence in the corpus; when none of them is in the vocabulary yet,
    registration appends them in that order with consecutive identifiers. *)
Lemma merge_step_registers_in_table_order lfl vocab sequence_list :
  (forall p,
      In p (find_most_frequent_pairs lfl (aggregate sequence_list)) ->
      Dict.get vocab p = None) ->
  update_vocabulary vocab
    (find_most_frequent_pairs lfl (aggregate sequence_list))
  = vocab ++ number_from (first_token vocab)
               (find_most_frequent_pairs lfl (aggregate sequence_list)).
Proof.
  intros Hnew. apply update_vocabulary_fresh; [|exact Hnew].
  apply find_most_frequent_pairs_NoDup, NoDup_keys_aggregate.
Qed.

(** ** The training loop as a state machine *)

Lemma train_step_deterministic lfl max_iter t t1 t2 :
  train_step lfl max_iter t t1 -> train_step lfl max_iter t t2 -> t1 = t2.
Proof.
  intros H1 H2.
  inversion H1 as [i v s Hi | i v s Hi Hf | i v s p ps Hi Hf]; subst;
    inversion H2 as [? ? ? Hi2 | ? ? ? Hi2 Hf2 | ? ? ? p2 ps2 Hi2 Hf2];
    subst; try reflexivity; try lia.
  - rewrite Hf in Hf2. discriminate Hf2.
  - rewrite Hf in Hf2. discriminate Hf2.
  - rewrite Hf in Hf2. injection Hf2 as -> ->. reflexivity.
Qed.

Lemma train_step_iterating lfl max_iter t t' :
  train_step lfl max_iter t t' -> phase_of t = Iterating.
Proof. intros H. inversion H; reflexivity. Qed.

Lemma train_run_deterministic lfl max_iter t r1 :
  train_run lfl max_iter t r1 ->
  forall r2, train_run lfl max_iter t r2 -> r1 = r2.
Proof.
  induction 1 as [t Hdone | t t' t'' Hstep Hrun IH]; intros r2 H2.
  - inversion H2 as [? ? | ? ? ? Hstep2 ?]; subst; [reflexivity|].
    apply train_step_iterating in Hstep2. contradiction.
  - inversion H2 as [? Hdone | ? t2' ? Hstep2 Hrun2]; subst.
    + apply train_step_iterating in Hstep. contradiction.
    + rewrite (train_step_deterministic _ _ _ _ _ Hstep Hstep2) in IH.
      now apply IH.
Qed.

(** The executable loop performs a complete run. *)
Lemma train_loop_run lfl max_iter :
  forall n i v s,
    n = Z.to_nat (max_iter - i) ->
    exists t,
      train_run lfl max_iter (mkTrainer Iterating i v s) t /\
      cur_vocab t = fst (train_loop n lfl v s) /\
      cur_sequences t = snd (train_loop n lfl v s).
Proof.
  induction n as [|n IH]; intros i v s Hn.
  - exists (mkTrainer Exhausted i v s). cbn. repeat split.
    eapply run_step; [apply step_exhausted; lia|].
    apply run_done. discriminate.
  - cbn [train_loop].
    destruct (find_most_frequent_pairs lfl (aggregate s)) as [|p ps] eqn:Hf.
    + exists (mkTrainer Converged i v s). cbn. repeat split.
      eapply run_step; [apply step_converged; [lia | exact Hf]|].
      apply run_done. discriminate.
    + destruct (IH (i + 1) (update_vocabulary v (p :: ps))
                  (map (fun seq =>
                          compress_sequence seq (update_vocabulary v (p :: ps)))
                     s) ltac:(lia)) as [t [Hrun [Hv Hs]]].
      exists t. repeat split; [|exact Hv|exact Hs].
      eapply run_step; [|exact Hrun].
      apply step_merge; [lia | exact Hf].
Qed.

(** Two complete runs of the loop from the same start state end in the
    same state, whose vocabulary is the one [train_bpe] computes. *)
Lemma train_run_unique :
  forall (regex_chunking : string -> list string) (self : BytePairEncoder)
         (train_text : string) (r1 r2 : trainer),
    train_run (lower_frequency_limit self) (max_iterations self)
      (start_state regex_chunking self train_text) r1 ->
    train_run (lower_frequency_limit self) (max_iterations self)
      (start_state regex_chunking self train_text) r2 ->
    r1 = r2 /\
    cur_vocab r1 = get_vocabulary (train_bpe regex_chunking self train_text).
Proof.
  intros regex_chunking self train_text r1 r2 H1 H2.
  split; [exact (train_run_deterministic _ _ _ _ H1 _ H2)|].
  destruct (train_loop_run (lower_frequency_limit self) (max_iterations self)
              (Z.to_nat (max_iterations self)) 0 (vocab self)
              (map encode_utf8 (regex_chunking train_text))
              ltac:(now rewrite Z.sub_0_r))
    as [t [Hrun [Hv _]]].
  rewrite (train_run_deterministic _ _ _ _ H1 _ Hrun), Hv.
  unfold get_vocabulary, train_bpe, train_sequences.
  destruct (train_loop _ _ _ _) as [v s]. reflexivity.
Qed.

Lemma train_run_aaaa :
  train_run 1 100
    (start_state single_chunk (mkEncoder 1 100 Dict.empty) "aaaa"%string)
    (mkTrainer Converged 2 [((97, 97), 0); ((0, 0), 1)] [[1]]).
Proof.
  eapply run_step.
  { apply (step_merge 1 100 0 [] [[97; 97; 97; 97]] (97, 97) []);
      [lia | reflexivity]. }
  eapply run_step.
  { apply (step_merge 1 100 1 [((97, 97), 0)] [[0; 0]] (0, 0) []);
      [lia | reflexivity]. }
  eapply run_step.
  { apply (step_converged 1 100 2 [((97, 97), 0); ((0, 0), 1)] [[1]]);
      [lia | reflexivity]. }
  apply run_done. discriminate.
Qed.

(** C2. Training on ["aaaa"] with [lower_frequency_limit = 1] and an empty
    initial vocabulary: the first iteration counts [(97,97)] three times and
    registers it, but under the identifier 0, not 256, and compresses
    [[97,97,97,97]] to [[0,0]]; the second registers [(0,0)] under 1 and
    compresses to [[1]]; the third finds no pair and stops.  The final
    vocabulary is [{(97,97): 0, (0,0): 1}]. *)
Theorem train_bpe_aaaa :
  forall regex_chunking : string -> list string,
    regex_chunking "aaaa"%string = ["aaaa"%string] ->
    let self := mkEncoder 1 100 Dict.empty in
    encode_utf8 "aaaa"%string = [97; 97; 97; 97] /\
    aggregate [[97; 97; 97; 97]] = [((97, 97), 3)] /\
    find_most_frequent_pairs 1 [((97, 97), 3)] = [(97, 97)] /\
    update_vocabulary Dict.empty [(97, 97)] = [((97, 97), 0)] /\
    compress_sequence [97; 97; 97; 97] [((97, 97), 0)] = [0; 0] /\
    aggregate [[0; 0]] = [((0, 0), 1)] /\
    find_most_frequent_pairs 1 [((0, 0), 1)] = [(0, 0)] /\
    update_vocabulary [((97, 97), 0)] [(0, 0)]
    = [((97, 97), 0); ((0, 0), 1)] /\
    compress_sequence [0; 0] [((97, 97), 0); ((0, 0), 1)] = [1] /\
    find_most_frequent_pairs 1 (aggregate [[1]]) = [] /\
    get_vocabulary (train_bpe regex_chunking self "aaaa"%string)
    = [((97, 97), 0); ((0, 0), 1)].
Proof.
  intros regex_chunking Hchunk self.
  repeat (split; [reflexivity|]).
  unfold train_bpe. rewrite Hchunk. reflexivity.
Qed.

Lemma train_bpe_aaaa_witness :
  single_chunk "aaaa"%string = ["aaaa"%string] /\
  get_vocabulary (train_bpe single_chunk (mkEncoder 1 100 Dict.empty) "aaaa"%string)
  = [((97, 97), 0); ((0, 0), 1)].
Proof.
  split; [reflexivity|].
  apply (train_bpe_aaaa single_chunk eq_refl).
Defined.

(** ** Consequences of numbering from 0 and of overwriting *)

(** A chunk of four zero bytes: the first iteration registers [(0,0)] under
    the identifier 0, so the compressed sequence [[0,0]] again consists of
    the pair [(0,0)]; the second iteration registers the same pair once
    more and overwrites its identifier with 1. *)
Lemma train_loop_zero_bytes :
  train_loop 1 1 Dict.empty [[0; 0; 0; 0]] = ([((0, 0), 0)], [[0; 0]]) /\
  train_loop 100 1 Dict.empty [[0; 0; 0; 0]] = ([((0, 0), 1)], [[1]]).
Proof. split; reflexivity. Qed.

(** [self.vocab] is mutated in place, and the default argument
    [vocabulary = {}] is one dict shared by every encoder built without a
    vocabulary: a second training starts from the vocabulary the first one
    left behind, re-registers [(97,97)] and overwrites its identifier. *)
Lemma train_bpe_twice_aaaa :
  let self := mkEncoder 1 100 Dict.empty in
  let once := train_bpe single_chunk self "aaaa"%string in
  let twice := train_bpe single_chunk once "aaaa"%string in
  get_vocabulary once = [((97, 97), 0); ((0, 0), 1)] /\
  get_vocabulary twice = [((97, 97), 2); ((0, 0), 1); ((2, 2), 3)].
Proof. split; reflexivity. Qed.

(** * Further properties of the code *)

(** ** [_count_pair_frequencies] *)

Lemma occurrences_nonneg p : forall seq, 0 <= occurrences p seq.
Proof.
  induction seq as [|a tl IH]; cbn [occurrences]; [lia|].
  destruct tl as [|b l]; [lia|].
  destruct (pair_eqb p (a, b)); lia.
Qed.

Lemma get_add d k n q :
  Dict.get (Dict.add d k n) q =
  if pair_eqb q k then Some (count_of d k + n) else Dict.get d q.
Proof.
  unfold count_of.
  induction d as [|[k' v'] d IH]; cbn [Dict.add Dict.get].
  - destruct (pair_eqb q k); reflexivity.
  - destruct (pair_eqb k k') eqn:E; cbn [Dict.get].
    + apply pair_eqb_eq in E. subst k'.
      destruct (pair_eqb q k); reflexivity.
    + rewrite IH. destruct (pair_eqb q k) eqn:Eq.
      * apply pair_eqb_eq in Eq. subst q. now rewrite E.
      * reflexivity.
Qed.

Lemma count_of_add d k n q :
  count_of (Dict.add d k n) q
  = count_of d q + (if pair_eqb q k then n else 0).
Proof.
  unfold count_of at 1. rewrite get_add.
  destruct (pair_eqb q k) eqn:E.
  - apply pair_eqb_eq in E. now subst q.
  - fold (count_of d q). lia.
Qed.

Lemma get_from_count d p :
  Dict.get d p = None \/ Dict.get d p = Some (count_of d p).
Proof. unfold count_of. destruct (Dict.get d p); auto. Qed.

Lemma In_keys_get d p : In p (Dict.keys d) -> Dict.get d p <> None.
Proof.
  intros Hin Hnone. exact (get_None_not_In _ _ Hnone Hin).
Qed.

Lemma count_loop_count p :
  forall seq fm,
    count_of (count_loop seq fm) p = count_of fm p + occurrences p seq.
Proof.
  induction seq as [|a tl IH]; intros fm; cbn [count_loop occurrences];
    [lia|].
  destruct tl as [|b l]; [lia|].
  rewrite IH, count_of_add. lia.
Qed.

Lemma count_loop_keys p :
  forall seq fm,
    In p (Dict.keys (count_loop seq fm)) <->
    In p (Dict.keys fm) \/ 0 < occurrences p seq.
Proof.
  induction seq as [|a tl IH]; intros fm; cbn [count_loop occurrences].
  - split; [auto | intros [H | H]; [exact H | lia]].
  - destruct tl as [|b l].
    + split; [auto | intros [H | H]; [exact H | lia]].
    + rewrite IH, In_keys_add.
      pose proof (occurrences_nonneg p (b :: l)) as Hocc.
      destruct (pair_eqb p (a, b)) eqn:E.
      * apply pair_eqb_eq in E. split; [intros _; right; lia | tauto].
      * assert (p <> (a, b))
          by (intros ->; now rewrite pair_eqb_refl in E).
        split; [intros [[Hk | Hk] | Hk] | intros [Hk | Hk]];
          try tauto; try (right; lia).
Qed.

(** X1. The table [_count_pair_frequencies] returns holds, for every pair,
    the number of positions at which the pair occurs in the sequence, and
    no entry for a pair that does not occur. *)
Theorem count_pair_frequencies_get :
  forall (sequence : list Symbol) (p : Pair),
    Dict.get (count_pair_frequencies sequence) p =
    if occurrences p sequence =? 0 then None
    else Some (occurrences p sequence).
Proof.
  intros sequence p. unfold count_pair_frequencies.
  pose proof (count_loop_count p sequence Dict.empty) as Hc.
  pose proof (count_loop_keys p sequence Dict.empty) as Hk.
  pose proof (occurrences_nonneg p sequence) as Hocc.
  change (count_of Dict.empty p) with 0 in Hc. cbn [Dict.empty Dict.keys map In] in Hk.
  destruct (Z.eqb_spec (occurrences p sequence) 0) as [Hz | Hnz].
  - destruct (Dict.get (count_loop sequence Dict.empty) p) eqn:Hg;
      [|reflexivity].
    apply get_Some_In_keys in Hg. apply Hk in Hg. lia.
  - destruct (get_from_count (count_loop sequence Dict.empty) p) as [Hg | Hg].
    + exfalso.
      assert (Hin : In p (Dict.keys (count_loop sequence Dict.empty)))
        by (apply Hk; right; lia).
      exact (In_keys_get _ _ Hin Hg).
    + rewrite Hg, Hc. reflexivity.
Qed.

Lemma sum_values_add d k n : sum_values (Dict.add d k n) = sum_values d + n.
Proof.
  unfold sum_values.
  induction d as [|[k' v'] d IH]; cbn [Dict.add Dict.values map snd fold_right].
  - lia.
  - destruct (pair_eqb k k'); cbn [map snd fold_right].
    + fold (Dict.values d). lia.
    + fold (Dict.values (Dict.add d k n)). fold (Dict.values d).
      rewrite IH. lia.
Qed.

Lemma count_loop_sum :
  forall seq fm,
    sum_values (count_loop seq fm)
    = sum_values fm + Z.max 0 (len seq - 1).
Proof.
  induction seq as [|a tl IH]; intros fm; cbn [count_loop].
  - change (len (@nil Symbol)) with 0. lia.
  - destruct tl as [|b l].
    + change (len [a]) with 1. lia.
    + rewrite IH, sum_values_add, !len_cons.
      pose proof (len_nonneg l). lia.
Qed.

(** X2. The counts of the table [_count_pair_frequencies] returns add up to
    the number of adjacent positions, [len - 1], and to 0 for a sequence of
    length 0 or 1, whose table is empty. *)
Theorem count_pair_frequencies_total :
  forall sequence : list Symbol,
    sum_values (count_pair_frequencies sequence)
    = Z.max 0 (len sequence - 1) /\
    (count_pair_frequencies sequence = Dict.empty <-> len sequence <= 1).
Proof.
  intros sequence. unfold count_pair_frequencies.
  pose proof (count_loop_sum sequence Dict.empty) as Hs.
  change (sum_values Dict.empty) with 0 in Hs.
  split; [lia|]. split.
  - intros He. rewrite He in Hs. change (sum_values Dict.empty) with 0 in Hs.
    lia.
  - intros Hlen. destruct sequence as [|a [|b l]]; try reflexivity.
    rewrite !len_cons in Hlen. pose proof (len_nonneg l). lia.
Qed.

(** ** The aggregated frequency table of [train_bpe] *)

Lemma add_items_count p :
  forall its fm,
    count_of (add_items fm its) p = count_of fm p + entry_sum p its.
Proof.
  unfold add_items.
  induction its as [|[k v] its IH]; intros fm; cbn [fold_left entry_sum fold_right fst snd].
  - lia.
  - rewrite IH, count_of_add. fold (entry_sum p its). lia.
Qed.

Lemma add_items_keys p :
  forall its fm,
    In p (Dict.keys (add_items fm its)) <->
    In p (Dict.keys fm) \/ In p (map fst its).
Proof.
  unfold add_items.
  induction its as [|[k v] its IH]; intros fm; cbn [fold_left map fst In].
  - tauto.
  - rewrite IH, In_keys_add. intuition congruence.
Qed.

Lemma entry_sum_notin p d : ~ In p (Dict.keys d) -> entry_sum p d = 0.
Proof.
  induction d as [|[k v] d IH]; cbn [Dict.keys map fst In entry_sum fold_right snd];
    intros Hnin; [reflexivity|].
  fold (entry_sum p d). rewrite IH by tauto.
  rewrite pair_eqb_neq; [lia|]. intros ->. tauto.
Qed.

Lemma count_of_notin p d : ~ In p (Dict.keys d) -> count_of d p = 0.
Proof.
  intros Hnin. unfold count_of.
  destruct (Dict.get d p) eqn:Hg; [|reflexivity].
  apply get_Some_In_keys in Hg. contradiction.
Qed.

Lemma entry_sum_NoDup p d :
  NoDup (Dict.keys d) -> entry_sum p d = count_of d p.
Proof.
  induction d as [|[k v] d IH]; cbn [Dict.keys map fst]; intros Hnd;
    [reflexivity|].
  inversion Hnd as [|? ? Hnin Hnd']; subst.
  cbn [entry_sum fold_right fst snd]. fold (entry_sum p d).
  unfold count_of. cbn [Dict.get].
  destruct (pair_eqb p k) eqn:E.
  - apply pair_eqb_eq in E. subst k. rewrite entry_sum_notin by exact Hnin.
    lia.
  - fold (count_of d p). rewrite IH by exact Hnd'. lia.
Qed.

Lemma NoDup_keys_count_loop :
  forall seq fm,
    NoDup (Dict.keys fm) -> NoDup (Dict.keys (count_loop seq fm)).
Proof.
  induction seq as [|a tl IH]; intros fm Hnd; cbn [count_loop];
    [exact Hnd|].
  destruct tl as [|b l]; [exact Hnd|].
  apply IH. now apply NoDup_keys_add.
Qed.

Lemma NoDup_keys_count_pair_frequencies seq :
  NoDup (Dict.keys (count_pair_frequencies seq)).
Proof. apply NoDup_keys_count_loop. constructor. Qed.

Lemma entry_sum_count_pair_frequencies p seq :
  entry_sum p (count_pair_frequencies seq) = occurrences p seq.
Proof.
  rewrite entry_sum_NoDup by apply NoDup_keys_count_pair_frequencies.
  unfold count_pair_frequencies. rewrite count_loop_count. reflexivity.
Qed.

Lemma keys_count_pair_frequencies p seq :
  In p (Dict.keys (count_pair_frequencies seq)) <-> 0 < occurrences p seq.
Proof.
  unfold count_pair_frequencies. rewrite count_loop_keys.
  cbn [Dict.empty Dict.keys map In]. tauto.
Qed.

Lemma corpus_occurrences_nonneg p :
  forall sequence_list, 0 <= corpus_occurrences p sequence_list.
Proof.
  induction sequence_list as [|seq l IH]; cbn [corpus_occurrences fold_right];
    [lia|].
  fold (corpus_occurrences p l). pose proof (occurrences_nonneg p seq). lia.
Qed.

Lemma aggregate_from p :
  forall sequence_list fm,
    let r :=
      fold_left
        (fun fm seq => add_items fm (Dict.items (count_pair_frequencies seq)))
        sequence_list fm in
    count_of r p = count_of fm p + corpus_occurrences p sequence_list /\
    (In p (Dict.keys r) <->
     In p (Dict.keys fm) \/ 0 < corpus_occurrences p sequence_list).
Proof.
  induction sequence_list as [|seq l IH]; intros fm;
    cbn [fold_left corpus_occurrences fold_right].
  - split; [lia|]. split; [auto | intros [H | H]; [exact H | lia]].
  - fold (corpus_occurrences p l).
    destruct (IH (add_items fm (Dict.items (count_pair_frequencies seq))))
      as [Hc Hk].
    cbv zeta in Hc, Hk |- *.
    pose proof (occurrences_nonneg p seq).
    pose proof (corpus_occurrences_nonneg p l).
    split.
    + rewrite Hc, add_items_count. unfold Dict.items.
      rewrite entry_sum_count_pair_frequencies. lia.
    + rewrite Hk, add_items_keys. unfold Dict.items.
      fold (Dict.keys (count_pair_frequencies seq)).
      rewrite keys_count_pair_frequencies.
      split; [intros [[Hf | Ho] | Hr] | intros [Hf | Hp]]; try tauto;
        try (right; lia).
      destruct (Z.ltb_spec 0 (occurrences p seq)); [tauto|].
      right. lia.
Qed.

Lemma aggregate_count p sequence_list :
  count_of (aggregate sequence_list) p
  = corpus_occurrences p sequence_list.
Proof.
  unfold aggregate.
  destruct (aggregate_from p sequence_list Dict.empty) as [Hc _].
  cbv zeta in Hc. rewrite Hc. reflexivity.
Qed.

Lemma aggregate_keys p sequence_list :
  In p (Dict.keys (aggregate sequence_list)) <->
  0 < corpus_occurrences p sequence_list.
Proof.
  unfold aggregate.
  destruct (aggregate_from p sequence_list Dict.empty) as [_ Hk].
  cbv zeta in Hk. rewrite Hk. cbn [Dict.empty Dict.keys map In]. tauto.
Qed.

(** X3. The frequency table [train_bpe] aggregates holds, for every pair,
    the sum over the chunks of the number of positions at which the pair
    occurs inside a chunk, and no entry for a pair that occurs in none:
    pairs are never counted across two chunks. *)
Theorem aggregate_get :
  forall (sequence_list : list (list Symbol)) (p : Pair),
    Dict.get (aggregate sequence_list) p =
    if corpus_occurrences p sequence_list =? 0 then None
    else Some (corpus_occurrences p sequence_list).
Proof.
  intros sequence_list p.
  pose proof (aggregate_count p sequence_list) as Hc.
  pose proof (aggregate_keys p sequence_list) as Hk.
  pose proof (corpus_occurrences_nonneg p sequence_list).
  destruct (Z.eqb_spec (corpus_occurrences p sequence_list) 0) as [Hz | Hnz].
  - destruct (Dict.get (aggregate sequence_list) p) eqn:Hg; [|reflexivity].
    apply get_Some_In_keys in Hg. apply Hk in Hg. lia.
  - destruct (get_from_count (aggregate sequence_list) p) as [Hg | Hg].
    + exfalso.
      assert (Hin : In p (Dict.keys (aggregate sequence_list)))
        by (apply Hk; lia).
      exact (In_keys_get _ _ Hin Hg).
    + rewrite Hg, Hc. reflexivity.
Qed.

(** ** [_find_most_frequent_pairs] on the aggregated table *)

Lemma fold_left_max_In (xs : list Z) :
  forall a, fold_left Z.max xs a = a \/ In (fold_left Z.max xs a) xs.
Proof.
  induction xs as [|y xs IH]; intros a; cbn [fold_left In]; [now left|].
  destruct (IH (Z.max a y)) as [H | H]; [|right; now right].
  rewrite H. destruct (Z.max_spec a y) as [[_ ->] | [_ ->]];
    [right; now left | now left].
Qed.

Lemma py_max_In (l : list Z) : l <> [] -> In (py_max l) l.
Proof.
  destruct l as [|a xs]; [contradiction|]. intros _. cbn [py_max].
  destruct (fold_left_max_In xs a) as [-> | H]; [now left | now right].
Qed.

Lemma In_get_NoDup d k v :
  NoDup (Dict.keys d) -> In (k, v) d -> Dict.get d k = Some v.
Proof.
  induction d as [|[k' v'] d IH]; cbn [Dict.keys map fst]; intros Hnd Hin;
    [destruct Hin|].
  inversion Hnd as [|? ? Hnin Hnd']; subst. cbn [Dict.get].
  destruct Hin as [[= -> ->] | Hin].
  - now rewrite pair_eqb_refl.
  - rewrite pair_eqb_neq; [now apply IH|].
    intros ->. apply Hnin. unfold Dict.keys.
    change k' with (fst (k', v)). now apply in_map.
Qed.

Lemma max_entry d :
  NoDup (Dict.keys d) -> d <> [] ->
  exists k, Dict.get d k = Some (py_max (Dict.values d)).
Proof.
  intros Hnd Hne.
  assert (Hv : Dict.values d <> [])
    by (destruct d; [contradiction | discriminate]).
  apply py_max_In in Hv. unfold Dict.values in Hv at 2.
  apply in_map_iff in Hv. destruct Hv as [[k v] [Hv Hin]].
  cbn [snd] in Hv. subst v. exists k. now apply In_get_NoDup.
Qed.

Lemma find_most_frequent_pairs_nonempty lfl freq_map :
  NoDup (Dict.keys freq_map) -> freq_map <> [] ->
  lfl <= py_max (Dict.values freq_map) ->
  find_most_frequent_pairs lfl freq_map <> [].
Proof.
  intros Hnd Hne Hle.
  destruct (max_entry freq_map Hnd Hne) as [k Hk].
  assert (Hin : In k (find_most_frequent_pairs lfl freq_map)).
  { apply find_most_frequent_pairs_In. rewrite Hk. f_equal.
    unfold target_frequency.
    destruct freq_map; [contradiction|]. cbn [Dict.is_empty]. lia. }
  intros He. rewrite He in Hin. destruct Hin.
Qed.

(** X4. On the table [train_bpe] aggregates, the pairs
    [_find_most_frequent_pairs] selects are pairwise distinct, and when the
    table is not empty the selection is empty exactly when the largest count
    is below [lower_frequency_limit]. *)
Theorem find_most_frequent_pairs_aggregate :
  forall (lfl : Z) (sequence_list : list (list Symbol)),
    NoDup (find_most_frequent_pairs lfl (aggregate sequence_list)) /\
    (aggregate sequence_list <> Dict.empty ->
     (find_most_frequent_pairs lfl (aggregate sequence_list) = [] <->
      py_max (Dict.values (aggregate sequence_list)) < lfl)).
Proof.
  intros lfl sequence_list.
  pose proof (NoDup_keys_aggregate sequence_list) as Hnd.
  split; [now apply find_most_frequent_pairs_NoDup|].
  intros Hne. split.
  - intros He.
    destruct (Z.ltb_spec (py_max (Dict.values (aggregate sequence_list))) lfl)
      as [Hlt | Hge]; [exact Hlt|].
    exfalso.
    exact (find_most_frequent_pairs_nonempty _ _ Hnd Hne Hge He).
  - apply find_most_frequent_pairs_below.
Qed.

Lemma find_most_frequent_pairs_aggregate_witness :
  find_most_frequent_pairs 2 (aggregate [[97; 98; 99]]) = [].
Proof.
  apply (proj2 (find_most_frequent_pairs_aggregate 2 [[97; 98; 99]])).
  - discriminate.
  - vm_compute. reflexivity.
Defined.

Lemma occurrences_head a b l : 0 < occurrences (a, b) (a :: b :: l).
Proof.
  cbn [occurrences]. rewrite pair_eqb_refl.
  pose proof (occurrences_nonneg (a, b) (b :: l)).
  change (match l with
          | [] => 0
          | b0 :: _ =>
              (if pair_eqb (a, b) (b, b0) then 1 else 0)
              + occurrences (a, b) l
          end) with (occurrences (a, b) (b :: l)).
  lia.
Qed.

Lemma corpus_occurrences_In p seq :
  forall sequence_list,
    In seq sequence_list -> 0 < occurrences p seq ->
    0 < corpus_occurrences p sequence_list.
Proof.
  induction sequence_list as [|s l IH]; intros Hin Hpos; [destruct Hin|].
  cbn [corpus_occurrences fold_right]. fold (corpus_occurrences p l).
  pose proof (occurrences_nonneg p s).
  pose proof (corpus_occurrences_nonneg p l).
  destruct Hin as [-> | Hin]; [lia|].
  specialize (IH Hin Hpos). lia.
Qed.

Lemma corpus_occurrences_short p :
  forall sequence_list,
    Forall (fun seq => len seq <= 1) sequence_list ->
    corpus_occurrences p sequence_list = 0.
Proof.
  induction 1 as [|seq l Hs Hl IH]; cbn [corpus_occurrences fold_right];
    [reflexivity|].
  fold (corpus_occurrences p l). rewrite IH.
  destruct seq as [|a [|b seq]]; try reflexivity.
  rewrite !len_cons in Hs. pose proof (len_nonneg seq). lia.
Qed.

Lemma aggregate_empty_iff sequence_list :
  aggregate sequence_list = Dict.empty <->
  Forall (fun seq => len seq <= 1) sequence_list.
Proof.
  split.
  - intros He. apply Forall_forall. intros seq Hin.
    destruct seq as [|a [|b l]].
    + change (len (@nil Symbol)) with 0. lia.
    + change (len [a]) with 1. lia.
    + exfalso.
      pose proof (corpus_occurrences_In (a, b) _ _ Hin (occurrences_head a b l))
        as Hpos.
      apply aggregate_keys in Hpos. rewrite He in Hpos. destruct Hpos.
  - intros Hall.
    destruct (aggregate sequence_list) as [|[k v] d] eqn:Ha; [reflexivity|].
    exfalso.
    assert (Hin : In k (Dict.keys (aggregate sequence_list)))
      by (rewrite Ha; now left).
    apply aggregate_keys in Hin.
    rewrite (corpus_occurrences_short k _ Hall) in Hin. lia.
Qed.

(** X5. With [lower_frequency_limit <= 1] (1 is the default) the selection
    from the aggregated table is empty exactly when every chunk has at most
    one symbol: as long as some chunk holds a pair, an iteration selects at
    least one pair. *)
Theorem find_most_frequent_pairs_default_limit :
  forall (lfl : Z) (sequence_list : list (list Symbol)),
    lfl <= 1 ->
    (find_most_frequent_pairs lfl (aggregate sequence_list) = [] <->
     Forall (fun seq => len seq <= 1) sequence_list).
Proof.
  intros lfl sequence_list Hlfl. rewrite <- aggregate_empty_iff. split.
  - intros He.
    destruct (aggregate sequence_list) as [|e d] eqn:Ha; [reflexivity|].
    exfalso.
    assert (Hne : aggregate sequence_list <> []) by (rewrite Ha; discriminate).
    pose proof (NoDup_keys_aggregate sequence_list) as Hnd.
    destruct (max_entry _ Hnd Hne) as [k Hk].
    pose proof (aggregate_count k sequence_list) as Hc.
    unfold count_of in Hc. rewrite Hk in Hc.
    pose proof (proj1 (aggregate_keys k sequence_list)
                  (get_Some_In_keys _ _ _ Hk)) as Hpos.
    apply (find_most_frequent_pairs_nonempty lfl _ Hnd Hne); [lia|].
    rewrite Ha. exact He.
  - intros ->. reflexivity.
Qed.

Lemma find_most_frequent_pairs_default_limit_witness :
  find_most_frequent_pairs 1 (aggregate [[97]; []; [98]]) = [].
Proof.
  apply (find_most_frequent_pairs_default_limit 1 [[97]; []; [98]]); [lia|].
  repeat constructor; vm_compute; discriminate.
Defined.

(** ** [_update_vocabulary] *)

Lemma mem_true_iff d p : Dict.mem d p = true <-> Dict.get d p <> None.
Proof.
  unfold Dict.mem. destruct (Dict.get d p); split; congruence.
Qed.

Lemma mem_update_vocabulary_old vocab pairs p :
  Dict.mem vocab p = true ->
  Dict.mem (update_vocabulary vocab pairs) p = true.
Proof.
  intros Hm. unfold update_vocabulary.
  destruct (in_dec pair_eq_dec p pairs) as [Hin | Hnin].
  - destruct (assign_tokens_in p pairs vocab (first_token vocab) Hin)
      as [tok [Hg _]].
    apply mem_true_iff. rewrite Hg. discriminate.
  - apply mem_true_iff. rewrite assign_tokens_other by exact Hnin.
    now apply mem_true_iff.
Qed.

Lemma mem_update_vocabulary_new vocab pairs p :
  In p pairs -> Dict.mem (update_vocabulary vocab pairs) p = true.
Proof.
  intros Hin. unfold update_vocabulary.
  destruct (assign_tokens_in p pairs vocab (first_token vocab) Hin)
    as [tok [Hg _]].
  apply mem_true_iff. rewrite Hg. discriminate.
Qed.

(** X6. After [_update_vocabulary] the keys of the vocabulary are the keys
    it had before together with the pairs registered: no key is ever
    removed, and every pair of the list is a key. *)
Theorem update_vocabulary_keys :
  forall (vocab : Dict.t) (pairs : list Pair) (p : Pair),
    Dict.mem (update_vocabulary vocab pairs) p = true <->
    Dict.mem vocab p = true \/ In p pairs.
Proof.
  intros vocab pairs p. unfold update_vocabulary.
  destruct (in_dec pair_eq_dec p pairs) as [Hin | Hnin].
  - destruct (assign_tokens_in p pairs vocab (first_token vocab) Hin)
      as [tok [Hg _]].
    rewrite mem_true_iff, Hg. split; [auto | discriminate].
  - rewrite !mem_true_iff, assign_tokens_other by exact Hnin. tauto.
Qed.

Lemma first_token_above vocab v :
  In v (Dict.values vocab) -> v < first_token vocab.
Proof.
  intros Hin. unfold first_token.
  destruct vocab as [|e d]; [destruct Hin|]. cbn [Dict.is_empty].
  apply py_max_ge in Hin. lia.
Qed.

(** X7. Every pair registered by [_update_vocabulary] receives an
    identifier from the block [first .. first + len(pairs) - 1], where
    [first] is 0 for an empty vocabulary and the largest identifier plus one
    otherwise; this identifier is larger than every identifier the
    vocabulary held before, so no identifier in use is handed out again. *)
Theorem update_vocabulary_new_identifier :
  forall (vocab : Dict.t) (pairs : list Pair) (p : Pair),
    In p pairs ->
    exists tok,
      Dict.get (update_vocabulary vocab pairs) p = Some tok /\
      first_token vocab <= tok < first_token vocab + len pairs /\
      forall old, In old (Dict.values vocab) -> old < tok.
Proof.
  intros vocab pairs p Hin.
  destruct (assign_tokens_in p pairs vocab (first_token vocab) Hin)
    as [tok [Hg Hb]].
  exists tok. split; [exact Hg|]. split; [exact Hb|].
  intros old Hold. apply first_token_above in Hold. lia.
Qed.

Lemma update_vocabulary_new_identifier_witness :
  exists tok,
    Dict.get (update_vocabulary [((97, 97), 256)] [(98, 99); (256, 98)])
      (256, 98) = Some tok /\
    first_token [((97, 97), 256)] <= tok
    < first_token [((97, 97), 256)] + len [(98, 99); (256, 98)] /\
    forall old, In old (Dict.values [((97, 97), 256)]) -> old < tok.
Proof.
  apply (update_vocabulary_new_identifier
           [((97, 97), 256)] [(98, 99); (256, 98)] (256, 98)).
  right. left. reflexivity.
Defined.

Lemma values_set_In d k n x :
  In x (Dict.values (Dict.set d k n)) -> x = n \/ In x (Dict.values d).
Proof.
  induction d as [|[k' v'] d IH]; cbn [Dict.set Dict.values map snd In].
  - intros [<- | []]. now left.
  - destruct (pair_eqb k k'); cbn [map snd In].
    + intros [<- | H]; [now left | right; now right].
    + fold (Dict.values (Dict.set d k n)). fold (Dict.values d).
      intros [<- | H]; [right; now left|].
      destruct (IH H) as [-> | H']; [now left | right; now right].
Qed.

Lemma NoDup_values_set d k n :
  NoDup (Dict.values d) -> ~ In n (Dict.values d) ->
  NoDup (Dict.values (Dict.set d k n)).
Proof.
  induction d as [|[k' v'] d IH]; cbn [Dict.set Dict.values map snd];
    intros Hnd Hnin.
  - constructor; [intros [] | constructor].
  - fold (Dict.values d) in *.
    inversion Hnd as [|? ? Hv' Hnd']; subst.
    destruct (pair_eqb k k'); cbn [map snd].
    + fold (Dict.values d). constructor; [|exact Hnd'].
      intros H. apply Hnin. now right.
    + fold (Dict.values (Dict.set d k n)). constructor.
      * intros H. apply values_set_In in H. destruct H as [-> | H].
        -- apply Hnin. now left.
        -- contradiction.
      * apply IH; [exact Hnd'|]. intros H. apply Hnin. now right.
Qed.

Lemma NoDup_values_assign_tokens :
  forall pairs vocab next,
    NoDup (Dict.values vocab) ->
    (forall v, In v (Dict.values vocab) -> v < next) ->
    NoDup (Dict.values (assign_tokens vocab pairs next)).
Proof.
  induction pairs as [|p pairs IH]; intros vocab next Hnd Hlt;
    cbn [assign_tokens]; [exact Hnd|].
  apply IH.
  - apply NoDup_values_set; [exact Hnd|].
    intros H. apply Hlt in H. lia.
  - intros v Hv. apply values_set_In in Hv.
    destruct Hv as [-> | Hv]; [lia|]. apply Hlt in Hv. lia.
Qed.

(** X8. [_update_vocabulary] keeps the identifiers of the vocabulary
    pairwise distinct: if no two entries share an identifier before the
    call, none do after it, whatever pairs are registered (new, repeated or
    already present). *)
Theorem update_vocabulary_distinct_identifiers :
  forall (vocab : Dict.t) (pairs : list Pair),
    NoDup (Dict.values vocab) ->
    NoDup (Dict.values (update_vocabulary vocab pairs)).
Proof.
  intros vocab pairs Hnd. unfold update_vocabulary.
  apply NoDup_values_assign_tokens; [exact Hnd|].
  intros v Hv. now apply first_token_above.
Qed.

Lemma update_vocabulary_distinct_identifiers_witness :
  NoDup (Dict.values
           (update_vocabulary [((97, 97), 256); ((98, 99), 257)]
              [(97, 97); (1, 2); (1, 2)])).
Proof.
  apply update_vocabulary_distinct_identifiers.
  cbn. repeat constructor; cbn; intuition discriminate.
Defined.

(** ** [_compress_sequence] *)

Lemma get_Some_In_values d k v : Dict.get d k = Some v -> In v (Dict.values d).
Proof.
  intros H. apply get_Some_In in H. unfold Dict.values.
  change v with (snd (k, v)). now apply in_map.
Qed.

Lemma merge_scan_symbols vocab x :
  forall l, In x (merge_scan vocab l) -> In x l \/ In x (Dict.values vocab).
Proof.
  induction l as [| a | a b l IHl IHbl] using list_ind2.
  - intros [].
  - intros H. now left.
  - rewrite merge_scan_cons2.
    destruct (Dict.get vocab (a, b)) as [tok|] eqn:Hg.
    + intros [<- | H].
      * right. eapply get_Some_In_values; eassumption.
      * destruct (IHl H) as [H' | H']; [left; right; now right | now right].
    + intros [<- | H]; [left; now left|].
      destruct (IHbl H) as [H' | H']; [left; now right | now right].
Qed.

(** X9. A compression pass invents no symbol: every symbol of the output is
    a symbol of the input sequence or an identifier of the vocabulary. *)
Theorem compress_sequence_symbols :
  forall (sequence : list Symbol) (vocab : Dict.t) (x : Symbol),
    In x (compress_sequence sequence vocab) ->
    In x sequence \/ In x (Dict.values vocab).
Proof.
  intros sequence vocab x. rewrite compress_sequence_scan.
  apply merge_scan_symbols.
Qed.

Lemma compress_sequence_symbols_witness :
  In 256 (compress_sequence [97; 97; 98] [((97, 97), 256)]) /\
  (In 256 [97; 97; 98] \/ In 256 (Dict.values [((97, 97), 256)])).
Proof.
  assert (H : In 256 (compress_sequence [97; 97; 98] [((97, 97), 256)]))
    by (left; reflexivity).
  split; [exact H|].
  exact (compress_sequence_symbols _ _ _ H).
Defined.

Lemma key_of_value_get vocab k v :
  NoDup (Dict.values vocab) -> Dict.get vocab k = Some v ->
  key_of_value vocab v = Some k.
Proof.
  induction vocab as [|[k' v'] d IH]; cbn [Dict.values map snd Dict.get];
    intros Hnd Hg; [discriminate|].
  fold (Dict.values d) in Hnd.
  inversion Hnd as [|? ? Hnin Hnd']; subst. cbn [key_of_value].
  destruct (pair_eqb k k') eqn:E.
  - injection Hg as ->. apply pair_eqb_eq in E. subst k'.
    now rewrite Z.eqb_refl.
  - destruct (Z.eqb_spec v' v) as [-> | Hne].
    + exfalso. apply Hnin. eapply get_Some_In_values; eassumption.
    + now apply IH.
Qed.

Lemma key_of_value_absent vocab x :
  ~ In x (Dict.values vocab) -> key_of_value vocab x = None.
Proof.
  induction vocab as [|[k v] d IH]; cbn [Dict.values map snd In key_of_value];
    intros Hnin; [reflexivity|].
  fold (Dict.values d) in Hnin.
  destruct (Z.eqb_spec v x); [tauto|]. apply IH. tauto.
Qed.

Lemma merge_scan_unmerge vocab :
  NoDup (Dict.values vocab) ->
  forall l,
    (forall x, In x l -> ~ In x (Dict.values vocab)) ->
    flat_map (unmerge vocab) (merge_scan vocab l) = l.
Proof.
  intros Hnd.
  induction l as [| a | a b l IHl IHbl] using list_ind2; intros Hsym.
  - reflexivity.
  - cbn [merge_scan flat_map]. unfold unmerge.
    rewrite key_of_value_absent by (apply Hsym; now left). reflexivity.
  - rewrite merge_scan_cons2.
    destruct (Dict.get vocab (a, b)) as [tok|] eqn:Hg; cbn [flat_map].
    + unfold unmerge at 1. rewrite (key_of_value_get _ _ _ Hnd Hg).
      cbn [app]. do 2 f_equal. apply IHl.
      intros x Hx. apply Hsym. right. now right.
    + unfold unmerge at 1.
      rewrite key_of_value_absent by (apply Hsym; now left).
      cbn [app]. f_equal. apply IHbl.
      intros x Hx. apply Hsym. now right.
Qed.

(** X10. A compression pass loses nothing when identifiers are unambiguous:
    if the identifiers of the vocabulary are pairwise distinct and none of
    them occurs as a symbol of the input, replacing every identifier of the
    output by the pair registered under it gives back the input. *)
Theorem compress_sequence_unmerge :
  forall (sequence : list Symbol) (vocab : Dict.t),
    NoDup (Dict.values vocab) ->
    (forall x, In x sequence -> ~ In x (Dict.values vocab)) ->
    flat_map (unmerge vocab) (compress_sequence sequence vocab) = sequence.
Proof.
  intros sequence vocab Hnd Hsym. rewrite compress_sequence_scan.
  now apply merge_scan_unmerge.
Qed.

Lemma compress_sequence_unmerge_witness :
  flat_map (unmerge [((97, 97), 256); ((97, 98), 257)])
    (compress_sequence [97; 97; 97; 98] [((97, 97), 256); ((97, 98), 257)])
  = [97; 97; 97; 98].
Proof.
  apply compress_sequence_unmerge.
  - cbn. repeat constructor; cbn; intuition discriminate.
  - intros x Hx Hv. cbn in Hx, Hv.
    destruct Hv as [<- | [<- | []]];
      repeat (destruct Hx as [Hx | Hx]; [discriminate Hx|]); destruct Hx.
Defined.

(** The same pass without the side conditions: with identifiers numbered
    from 0 a merged symbol can coincide with a byte of the text, and the
    input can no longer be told from the output. *)
Lemma compress_sequence_ambiguous :
  compress_sequence [97; 97; 0] [((97, 97), 0)] = [0; 0] /\
  compress_sequence [0; 97; 97] [((97, 97), 0)] = [0; 0].
Proof. split; reflexivity. Qed.

Lemma merge_scan_shrinks vocab :
  forall l,
    (exists i, 0 <= i < len l - 1 /\
               Dict.mem vocab (getitem l i, getitem l (i + 1)) = true) ->
    (length (merge_scan vocab l) < length l)%nat.
Proof.
  induction l as [| a | a b l IHl IHbl] using list_ind2;
    intros [i [Hi Hm]].
  - change (len (@nil Symbol)) with 0 in Hi. lia.
  - change (len [a]) with 1 in Hi. lia.
  - rewrite merge_scan_cons2.
    destruct (Dict.get vocab (a, b)) as [tok|] eqn:Hg; cbn [length].
    + pose proof (merge_scan_length_le vocab l). lia.
    + apply -> Nat.succ_lt_mono. apply IHbl.
      assert (Hi0 : i <> 0).
      { intros ->. unfold Dict.mem in Hm.
        change (getitem (a :: b :: l) 0) with a in Hm.
        change (getitem (a :: b :: l) (0 + 1)) with b in Hm.
        rewrite Hg in Hm. discriminate. }
      exists (i - 1). rewrite len_cons in Hi. split; [lia|].
      replace i with (i - 1 + 1) in Hm by lia.
      rewrite (getitem_cons a (b :: l) (i - 1)) in Hm by lia.
      rewrite (getitem_cons a (b :: l) (i - 1 + 1)) in Hm by lia.
      exact Hm.
Qed.

(** X11. A compression pass strictly shortens every sequence in which some
    adjacent pair is a key of the vocabulary (the converse of the fixpoint
    property): at least one merge is performed. *)
Theorem compress_sequence_shrinks :
  forall (sequence : list Symbol) (vocab : Dict.t),
    (exists i, 0 <= i < len sequence - 1 /\
               Dict.mem vocab (getitem sequence i, getitem sequence (i + 1))
               = true) ->
    len (compress_sequence sequence vocab) < len sequence.
Proof.
  intros sequence vocab H. rewrite compress_sequence_scan. unfold len.
  pose proof (merge_scan_shrinks vocab sequence H). lia.
Qed.

Lemma compress_sequence_shrinks_witness :
  len (compress_sequence [98; 97; 97] [((97, 97), 256)]) < len [98; 97; 97].
Proof.
  apply compress_sequence_shrinks. exists 1. split; [|reflexivity].
  change (len [98; 97; 97]) with 3. lia.
Defined.

(** ** [train_bpe] *)

Lemma train_loop_keys lfl p :
  forall n vocab sequence_list,
    Dict.mem vocab p = true ->
    Dict.mem (fst (train_loop n lfl vocab sequence_list)) p = true.
Proof.
  induction n as [|n IH]; intros vocab sequence_list Hm; cbn [train_loop];
    [exact Hm|].
  destruct (find_most_frequent_pairs lfl (aggregate sequence_list))
    as [|q qs]; [exact Hm|].
  apply IH. now apply mem_update_vocabulary_old.
Qed.

Lemma train_bpe_vocab regex_chunking self train_text :
  get_vocabulary (train_bpe regex_chunking self train_text)
  = fst (train_loop (Z.to_nat (max_iterations self))
           (lower_frequency_limit self) (vocab self)
           (map encode_utf8 (regex_chunking train_text))).
Proof.
  unfold get_vocabulary, train_bpe, train_sequences.
  destruct (train_loop _ _ _ _) as [v s]. reflexivity.
Qed.

(** X12. Training never removes a pair from the vocabulary: every pair that
    is a key of the encoder's vocabulary before [train_bpe] is a key of the
    vocabulary afterwards, for every text and configuration. *)
Theorem train_bpe_keeps_keys :
  forall (regex_chunking : string -> list string) (self : BytePairEncoder)
         (train_text : string) (p : Pair),
    Dict.mem (vocab self) p = true ->
    Dict.mem (get_vocabulary (train_bpe regex_chunking self train_text)) p
    = true.
Proof.
  intros regex_chunking self train_text p Hm.
  rewrite train_bpe_vocab. now apply train_loop_keys.
Qed.

Lemma train_bpe_keeps_keys_witness :
  Dict.mem
    (get_vocabulary
       (train_bpe single_chunk (mkEncoder 1 100 [((1, 2), 300)])
          "aaaa"%string))
    (1, 2) = true.
Proof.
  apply train_bpe_keeps_keys. reflexivity.
Defined.

Lemma train_loop_distinct_identifiers lfl :
  forall n vocab sequence_list,
    NoDup (Dict.values vocab) ->
    NoDup (Dict.values (fst (train_loop n lfl vocab sequence_list))).
Proof.
  induction n as [|n IH]; intros vocab sequence_list Hnd; cbn [train_loop];
    [exact Hnd|].
  destruct (find_most_frequent_pairs lfl (aggregate sequence_list))
    as [|q qs]; [exact Hnd|].
  apply IH. unfold update_vocabulary.
  apply NoDup_values_assign_tokens; [exact Hnd|].
  intros v Hv. now apply first_token_above.
Qed.

(** X13. Training keeps identifiers pairwise distinct: if no two entries of
    the initial vocabulary share an identifier (in particular when it is
    empty), no two entries of the trained vocabulary do. *)
Theorem train_bpe_distinct_identifiers :
  forall (regex_chunking : string -> list string) (self : BytePairEncoder)
         (train_text : string),
    NoDup (Dict.values (vocab self)) ->
    NoDup (Dict.values
             (get_vocabulary (train_bpe regex_chunking self train_text))).
Proof.
  intros regex_chunking self train_text Hnd.
  rewrite train_bpe_vocab. now apply train_loop_distinct_identifiers.
Qed.

Lemma train_bpe_distinct_identifiers_witness :
  NoDup (Dict.values
           (get_vocabulary
              (train_bpe single_chunk (mkEncoder 1 100 Dict.empty)
                 "aaaa"%string))).
Proof.
  apply train_bpe_distinct_identifiers. constructor.
Defined.

Lemma Forall2_len_map vocab :
  forall l out,
    Forall2 (fun o i : list Symbol => len o <= len i) out
      (map (fun seq => compress_sequence seq vocab) l) ->
    Forall2 (fun o i : list Symbol => len o <= len i) out l.
Proof.
  induction l as [|seq l IH]; intros out H; cbn [map] in H.
  - inversion H. constructor.
  - inversion H as [|o ? out' ? Ho Hrest]; subst. constructor.
    + rewrite compress_sequence_scan in Ho.
      pose proof (merge_scan_length_le vocab seq). unfold len in *. lia.
    + now apply IH.
Qed.

Lemma Forall2_len_refl (l : list (list Symbol)) :
  Forall2 (fun o i : list Symbol => len o <= len i) l l.
Proof. induction l; constructor; [lia | assumption]. Qed.

(** X14. Training keeps the chunks apart and never lengthens one: whatever
    the budget, the loop of [train_bpe] ends with as many sequences as it
    started with, each no longer than the sequence it came from. *)
Theorem train_loop_sequences :
  forall (n : nat) (lfl : Z) (vocab : Dict.t)
         (sequence_list : list (list Symbol)),
    Forall2 (fun out inp : list Symbol => len out <= len inp)
      (snd (train_loop n lfl vocab sequence_list)) sequence_list.
Proof.
  induction n as [|n IH]; intros lfl vocab sequence_list; cbn [train_loop].
  - apply Forall2_len_refl.
  - destruct (find_most_frequent_pairs lfl (aggregate sequence_list))
      as [|q qs]; [apply Forall2_len_refl|].
    eapply Forall2_len_map. apply IH.
Qed.

Lemma train_loop_short n lfl vocab sequence_list :
  Forall (fun seq => len seq <= 1) sequence_list ->
  train_loop n lfl vocab sequence_list = (vocab, sequence_list).
Proof.
  intros Hshort. apply aggregate_empty_iff in Hshort.
  destruct n as [|n]; cbn [train_loop]; [reflexivity|].
  rewrite Hshort. reflexivity.
Qed.

(** X15. Nothing to train on: when [max_iterations <= 0], or when every
    chunk encodes to at most one byte (in particular for a text with no
    chunk at all), [train_bpe] leaves the encoder, and so its vocabulary,
    exactly as it was. *)
Theorem train_bpe_nothing_to_merge :
  forall (regex_chunking : string -> list string) (self : BytePairEncoder)
         (train_text : string),
    max_iterations self <= 0 \/
    Forall (fun chunk => len (encode_utf8 chunk) <= 1)
      (regex_chunking train_text) ->
    train_bpe regex_chunking self train_text = self.
Proof.
  intros regex_chunking self train_text H.
  unfold train_bpe, train_sequences.
  assert (Hloop :
            train_loop (Z.to_nat (max_iterations self))
              (lower_frequency_limit self) (vocab self)
              (map encode_utf8 (regex_chunking train_text))
            = (vocab self, map encode_utf8 (regex_chunking train_text))).
  { destruct H as [Hmax | Hshort].
    - replace (Z.to_nat (max_iterations self)) with 0%nat by lia.
      reflexivity.
    - apply train_loop_short. now apply Forall_map. }
  rewrite Hloop. destruct self. reflexivity.
Qed.

Lemma train_bpe_nothing_to_merge_witness :
  train_bpe single_chunk (mkEncoder 1 100 [((97, 97), 256)]) "a"%string
  = mkEncoder 1 100 [((97, 97), 256)].
Proof.
  apply train_bpe_nothing_to_merge. right.
  repeat constructor. vm_compute. discriminate.
Defined.

(** *** Every merging iteration shortens the corpus *)

Lemma total_len_nonneg l : 0 <= total_len l.
Proof.
  induction l as [|s l IH]; cbn [total_len fold_right]; [lia|].
  fold (total_len l). pose proof (len_nonneg s). lia.
Qed.

Lemma occurrences_index p :
  forall seq,
    0 < occurrences p seq ->
    exists i, 0 <= i < len seq - 1 /\
              (getitem seq i, getitem seq (i + 1)) = p.
Proof.
  induction seq as [|a tl IH]; [cbn; lia|].
  destruct tl as [|b l]; [cbn; lia|].
  change (occurrences p (a :: b :: l))
    with ((if pair_eqb p (a, b) then 1 else 0) + occurrences p (b :: l)).
  intros Hpos. pose proof (len_nonneg l).
  destruct (pair_eqb p (a, b)) eqn:E.
  - apply pair_eqb_eq in E. exists 0. rewrite !len_cons.
    split; [lia | now subst p].
  - destruct (IH ltac:(lia)) as [i [Hi Hp]].
    exists (i + 1). rewrite len_cons in Hi. rewrite !len_cons.
    split; [lia|].
    rewrite (getitem_cons a (b :: l) i) by lia.
    rewrite (getitem_cons a (b :: l) (i + 1)) by lia. exact Hp.
Qed.

Lemma corpus_occurrences_pos p :
  forall sequence_list,
    0 < corpus_occurrences p sequence_list ->
    exists seq, In seq sequence_list /\ 0 < occurrences p seq.
Proof.
  induction sequence_list as [|s l IH]; cbn [corpus_occurrences fold_right];
    [lia|].
  fold (corpus_occurrences p l). intros Hpos.
  destruct (Z.ltb_spec 0 (occurrences p s)) as [Hs | Hs].
  - exists s. split; [now left | exact Hs].
  - destruct (IH ltac:(lia)) as [seq [Hin Hocc]].
    exists seq. split; [now right | exact Hocc].
Qed.

Lemma total_len_map_lt vocab seq :
  forall l,
    In seq l ->
    len (compress_sequence seq vocab) < len seq ->
    total_len (map (fun s => compress_sequence s vocab) l) < total_len l.
Proof.
  assert (Hle : forall l,
             total_len (map (fun s => compress_sequence s vocab) l)
             <= total_len l).
  { induction l as [|s l IH]; cbn [map total_len fold_right]; [lia|].
    fold (total_len l).
    fold (total_len (map (fun s => compress_sequence s vocab) l)).
    rewrite compress_sequence_scan.
    pose proof (merge_scan_length_le vocab s). unfold len. lia. }
  induction l as [|s l IH]; intros Hin Hlt; [destruct Hin|].
  cbn [map total_len fold_right]. fold (total_len l).
  fold (total_len (map (fun s => compress_sequence s vocab) l)).
  destruct Hin as [-> | Hin].
  - specialize (Hle l). lia.
  - specialize (IH Hin Hlt).
    assert (len (compress_sequence s vocab) <= len s).
    { rewrite compress_sequence_scan.
      pose proof (merge_scan_length_le vocab s). unfold len. lia. }
    lia.
Qed.

Lemma merge_iteration_shortens lfl vocab sequence_list q qs :
  find_most_frequent_pairs lfl (aggregate sequence_list) = q :: qs ->
  total_len
    (map (fun s => compress_sequence s (update_vocabulary vocab (q :: qs)))
       sequence_list)
  < total_len sequence_list.
Proof.
  intros Hf.
  assert (Hq : In q (find_most_frequent_pairs lfl (aggregate sequence_list)))
    by (rewrite Hf; now left).
  apply find_most_frequent_pairs_In, get_Some_In_keys, aggregate_keys in Hq.
  destruct (corpus_occurrences_pos _ _ Hq) as [seq [Hin Hocc]].
  destruct (occurrences_index _ _ Hocc) as [i [Hi Hp]].
  apply (total_len_map_lt _ seq); [exact Hin|].
  rewrite compress_sequence_scan. unfold len.
  assert (Hs : (length (merge_scan (update_vocabulary vocab (q :: qs)) seq)
                < length seq)%nat).
  { apply merge_scan_shrinks. exists i. split; [exact Hi|].
    rewrite Hp. apply mem_update_vocabulary_new. now left. }
  lia.
Qed.

Lemma train_loop_add lfl :
  forall m k vocab sequence_list,
    train_loop (m + k) lfl vocab sequence_list
    = train_loop k lfl
        (fst (train_loop m lfl vocab sequence_list))
        (snd (train_loop m lfl vocab sequence_list)).
Proof.
  induction m as [|m IH]; intros k vocab sequence_list; [reflexivity|].
  cbn [Nat.add train_loop].
  destruct (find_most_frequent_pairs lfl (aggregate sequence_list))
    as [|q qs] eqn:Hf.
  - cbn [fst snd]. destruct k as [|k]; cbn [train_loop]; [reflexivity|].
    now rewrite Hf.
  - apply IH.
Qed.

Lemma train_loop_converged lfl :
  forall n vocab sequence_list,
    total_len sequence_list <= Z.of_nat n ->
    find_most_frequent_pairs lfl
      (aggregate (snd (train_loop n lfl vocab sequence_list))) = [].
Proof.
  induction n as [|n IH]; intros vocab sequence_list Hlen;
    cbn [train_loop].
  - cbn [snd].
    destruct (find_most_frequent_pairs lfl (aggregate sequence_list))
      as [|q qs] eqn:Hf; [reflexivity|].
    pose proof (merge_iteration_shortens lfl vocab _ _ _ Hf) as Hlt.
    pose proof (total_len_nonneg
                  (map (fun s =>
                          compress_sequence s
                            (update_vocabulary vocab (q :: qs)))
                     sequence_list)).
    lia.
  - destruct (find_most_frequent_pairs lfl (aggregate sequence_list))
      as [|q qs] eqn:Hf; [exact Hf|].
    apply IH.
    pose proof (merge_iteration_shortens lfl vocab _ _ _ Hf). lia.
Qed.

(** X16. Every iteration of the loop that selects a pair shortens the
    corpus by at least one symbol; so after [n >= total length] iterations
    no pair is selected any more, and any larger budget gives the same
    vocabulary and sequences. *)
Theorem train_loop_budget :
  forall (n : nat) (lfl : Z) (vocab : Dict.t)
         (sequence_list : list (list Symbol)),
    (forall q qs,
        find_most_frequent_pairs lfl (aggregate sequence_list) = q :: qs ->
        train_loop 1 lfl vocab sequence_list
        = (update_vocabulary vocab (q :: qs),
           map (fun s =>
                  compress_sequence s (update_vocabulary vocab (q :: qs)))
             sequence_list) /\
        total_len (snd (train_loop 1 lfl vocab sequence_list)) + 1
        <= total_len sequence_list) /\
    (total_len sequence_list <= Z.of_nat n ->
     find_most_frequent_pairs lfl
       (aggregate (snd (train_loop n lfl vocab sequence_list))) = [] /\
     forall m, (n <= m)%nat ->
       train_loop m lfl vocab sequence_list
       = train_loop n lfl vocab sequence_list).
Proof.
  intros n lfl vocab sequence_list. split.
  - intros q qs Hf.
    assert (H1 : train_loop 1 lfl vocab sequence_list
                 = (update_vocabulary vocab (q :: qs),
                    map (fun s =>
                           compress_sequence s
                             (update_vocabulary vocab (q :: qs)))
                      sequence_list))
      by (cbn [train_loop]; now rewrite Hf).
    split; [exact H1|]. rewrite H1. cbn [snd].
    pose proof (merge_iteration_shortens lfl vocab _ _ _ Hf). lia.
  - intros Hlen.
    pose proof (train_loop_converged lfl n vocab sequence_list Hlen) as Hc.
    split; [exact Hc|].
    intros m Hm. replace m with (n + (m - n))%nat by lia.
    rewrite train_loop_add.
    destruct (train_loop n lfl vocab sequence_list) as [v s].
    cbn [fst snd] in *.
    destruct (m - n)%nat; cbn [train_loop]; [reflexivity|].
    now rewrite Hc.
Qed.

Lemma train_loop_budget_witness :
  total_len (snd (train_loop 1 1 Dict.empty [[97; 97; 97; 97]])) + 1
  <= total_len [[97; 97; 97; 97]] /\
  train_loop 100 1 Dict.empty [[97; 97; 97; 97]]
  = train_loop 4 1 Dict.empty [[97; 97; 97; 97]].
Proof.
  split.
  - apply (proj1 (train_loop_budget 4 1 Dict.empty [[97; 97; 97; 97]])
             (97, 97) []).
    reflexivity.
  - apply (proj2 (train_loop_budget 4 1 Dict.empty [[97; 97; 97; 97]])).
    + vm_compute. discriminate.
    + lia.
Defined.

(** ** Determinism of training, tie order and shared vocabularies *)

(** *** The frequency table lists pairs in order of first occurrence *)













(** *** The pairs of a list are numbered in the order of the list *)


(** *** Stores *)



Lemma length_store_set :
  forall h r d, length (store_set h r d) = length h.
Proof.
  induction h as [|x h IH]; intros r d; [reflexivity|].
  destruct r; cbn [store_set length]; [reflexivity|]. now rewrite IH.
Qed.

(** *** Two runs *)



